(** * Plumet: the style-tree compiler (generator.ts)

    A shallow embedding of the compiler of [src/generator.ts] and the
    properties its specification states about it.

    Conventions of the embedding.
    - A JavaScript string is a [string]: the sequence of its code units,
      for code units below 256.  Every code the compiler tests (38 [&],
      58 [:], 64 [@], 65..90 [A]..[Z], 42 [*]) lies in that range.
    - A JavaScript value is a [jsval]; an object is the list of its own
      enumerable properties in [Object.keys] order (keys are unique in a
      JavaScript object, so [style[key]] for a key of [Object.keys(style)]
      is the value stored with that key).
    - The array [out] that the walker pushes to is passed in and returned.
    - The module-level [kebabCache] is passed in and returned by every
      function that reaches [kebabCase]. *)

From Stdlib Require Import ZArith NArith Ascii String List Lia Bool.
From Stdlib Require Import Numbers.DecimalString.
From stdpp Require Import base strings gmap list.
From Equations Require Import Equations.

#[local] Arguments String.append !s1 s2 : simpl nomatch.

(** ** JavaScript strings *)

Module JsString.

Local Open Scope Z_scope.

(** The line feed character, [\n]. *)
Definition nl : string := String (ascii_of_nat 10) "".

(** [s.charCodeAt(i)]; [None] stands for [NaN]. *)
Definition charCodeAt (s : string) (i : nat) : option Z :=
  match String.get i s with
  | Some c => Some (Z.of_N (N_of_ascii c))
  | None => None
  end.

(** [code === k] for the result of [charCodeAt]. *)
Definition codeIs (code : option Z) (k : Z) : bool :=
  match code with
  | Some c => c =? k
  | None => false
  end.

(** Truthiness of a string: a string is falsy exactly when empty. *)
Definition nonEmpty (s : string) : bool :=
  match s with
  | EmptyString => false
  | String _ _ => true
  end.

(** [s.indexOf(ch, from)] for a one-character needle: the least index
    [i >= from] with [s[i] = ch], or [-1].  [i] is the index of the head
    of [s] in the whole string. *)
Fixpoint indexFrom (s : string) (ch : ascii) (i from : Z) : Z :=
  match s with
  | EmptyString => -1
  | String c s' =>
      if (from <=? i) && Ascii.eqb c ch then i
      else indexFrom s' ch (i + 1) from
  end.

Definition indexOf (s : string) (ch : ascii) (from : Z) : Z :=
  indexFrom s ch 0 from.

(** Relative index of [slice]: negative counts from the end, and the
    result is clamped to [0, length]. *)
Definition relIndex (len k : Z) : Z :=
  if k <? 0 then Z.max (len + k) 0 else Z.min k len.

(** [s.slice(start, end)]. *)
Definition slice (s : string) (start end_ : Z) : string :=
  let len := Z.of_nat (String.length s) in
  let from := relIndex len start in
  let to := relIndex len end_ in
  String.substring (Z.to_nat from) (Z.to_nat (to - from)) s.

(** [s.slice(start)]: up to the end of the string. *)
Definition sliceFrom (s : string) (start : Z) : string :=
  slice s start (Z.of_nat (String.length s)).

(** ["  ".repeat(n)] and the like. *)
Fixpoint repeat (s : string) (n : nat) : string :=
  match n with
  | O => ""
  | S n' => s +:+ repeat s n'
  end.

(** [parts.join("")]. *)
Definition join (parts : list string) : string :=
  fold_right String.append "" parts.

End JsString.
Import JsString.

(** ** JavaScript values *)

(** The values a style tree is made of.  [JNum z] is an integer-valued
    number (of magnitude below 10^21, where [String] prints plain decimal
    digits); an array is not a value of this model. *)
#[warnings="-register-all"]
Inductive jsval : Type :=
| JUndefined
| JNull
| JBool (b : bool)
| JNum (z : Z)
| JStr (s : string)
| JObject (props : list (string * jsval)).

(** Induction over values with the hypothesis for every property value. *)
Lemma jsval_nested_ind (P : jsval -> Prop) :
  P JUndefined -> P JNull ->
  (forall b, P (JBool b)) -> (forall z, P (JNum z)) -> (forall s, P (JStr s)) ->
  (forall props, Forall (fun kv => P (snd kv)) props -> P (JObject props)) ->
  forall v, P v.
Proof.
  intros Hu Hn Hb Hz Hs Ho.
  fix IH 1. intros v. destruct v as [ | | b | z | s | props].
  - exact Hu.
  - exact Hn.
  - apply Hb.
  - apply Hz.
  - apply Hs.
  - apply Ho. induction props as [|[k v] props IHprops]; constructor.
    + simpl. apply IH.
    + exact IHprops.
Qed.

Module JsValue.

(** [!v]. *)
Definition falsy (v : jsval) : bool :=
  match v with
  | JUndefined | JNull => true
  | JBool b => negb b
  | JNum z => (z =? 0)%Z
  | JStr s => negb (nonEmpty s)
  | JObject _ => false
  end.

(** [typeof v === "object"]; [typeof null] is ["object"] too. *)
Definition typeofObject (v : jsval) : bool :=
  match v with
  | JNull | JObject _ => true
  | _ => false
  end.

(** [v == null]: true of [null] and [undefined] only. *)
Definition nullish (v : jsval) : bool :=
  match v with
  | JUndefined | JNull => true
  | _ => false
  end.

(** [String(v)]. *)
Definition toString (v : jsval) : string :=
  match v with
  | JUndefined => "undefined"
  | JNull => "null"
  | JBool true => "true"
  | JBool false => "false"
  | JNum z => NilZero.string_of_int (Z.to_int z)
  | JStr s => s
  | JObject _ => "[object Object]"
  end.

(** [obj[key]] on the property list of an object. *)
Fixpoint lookup (key : string) (props : list (string * jsval)) : jsval :=
  match props with
  | [] => JUndefined
  | (k, v) :: rest => if String.eqb k key then v else lookup key rest
  end.

(** [v[key]] for member access on any value the walker holds; only
    objects carry the keys the walker asks for. *)
Definition get (v : jsval) (key : string) : jsval :=
  match v with
  | JObject props => lookup key props
  | _ => JUndefined
  end.

(** The characters of a string as the indexed properties ["0"], ["1"],
    ... of its wrapper object. *)
Fixpoint indexed (s : string) (i : nat) : list (string * jsval) :=
  match s with
  | EmptyString => []
  | String c s' =>
      (NilZero.string_of_uint (Nat.to_uint i), JStr (String c ""))
        :: indexed s' (S i)
  end.

(** The properties [for (const k in v)] enumerates, with their values:
    those of an object, the characters of a string, none otherwise. *)
Definition forIn (v : jsval) : list (string * jsval) :=
  match v with
  | JObject props => props
  | JStr s => indexed s 0
  | _ => []
  end.

End JsValue.
Import JsValue.

(** ** kebabCase and its cache *)

Section NamesAndSelectors.
Local Open Scope Z_scope.

(** One pass of the loop of [kebabCase] over the remaining characters,
    [result] being what was appended so far. *)
Fixpoint kebabLoop (key result : string) : string :=
  match key with
  | EmptyString => result
  | String ch rest =>
      let code := Z.of_N (N_of_ascii ch) in
      if (65 <=? code) && (code <=? 90)
      then kebabLoop rest
             (result +:+ "-" +:+ String (ascii_of_N (Z.to_N (code + 32))) "")
      else kebabLoop rest (result +:+ String ch "")
  end.

(** [kebabCase(key)] with the cache it consults and updates: a cached
    value is returned only when truthy. *)
Definition kebabCase (key : string) (cache : gmap string string)
  : string * gmap string string :=
  match cache !! key with
  | Some cached =>
      if nonEmpty cached then (cached, cache)
      else let result := kebabLoop key "" in (result, <[key := result]> cache)
  | None =>
      let result := kebabLoop key "" in (result, <[key := result]> cache)
  end.

(** ** Selector resolution *)

Definition inspect {A} (a : A) : {b : A | a = b} := exist _ a eq_refl.

Lemma indexFrom_range s ch i from :
  indexFrom s ch i from = -1 \/
  (Z.max from i <= indexFrom s ch i from < i + Z.of_nat (String.length s)).
Proof.
  revert i. induction s as [|c s IH]; intros i; simpl; [now left|].
  destruct ((from <=? i) && Ascii.eqb c ch) eqn:E.
  - right. apply andb_true_iff in E as [E _]. apply Z.leb_le in E. lia.
  - destruct (IH (i + 1)) as [H|H]; [now left|right]. lia.
Qed.

(** The measure that decreases along the [while] loop of
    [injectSelector]: the distance of [idx] from the end of the template. *)
Definition injectMeasure (template : string) (idx : Z) : nat :=
  if idx =? -1 then 0%nat
  else if idx <? 0 then S (S (String.length template))
  else S (Z.to_nat (Z.of_nat (String.length template) - idx)).

(** The [while (idx !== -1)] loop of [injectSelector] on its variables
    [acc], [last] and [idx], followed by the final [acc += slice(last)]. *)
Equations? injectLoop (template selector acc : string) (last idx : Z)
  : string by wf (injectMeasure template idx) lt :=
  injectLoop template selector acc last idx with inspect (idx =? -1) => {
    | exist _ true _ := acc +:+ sliceFrom template last;
    | exist _ false _ :=
        injectLoop template selector
          (acc +:+ (slice template last idx +:+ selector))
          (idx + 1)
          (indexOf template "&" (idx + 1)) }.
Proof.
  unfold injectMeasure, indexOf. rewrite e.
  pose proof (indexFrom_range template "&" 0 (idx + 1)) as H.
  apply Z.eqb_neq in e.
  repeat match goal with
         | |- context [Z.eqb ?a ?b] => destruct (Z.eqb_spec a b)
         | |- context [Z.ltb ?a ?b] => destruct (Z.ltb_spec a b)
         end; lia.
Qed.

Definition injectSelector (template selector : string) : string :=
  let idx := indexOf template "&" 0 in
  if idx =? -1 then template
  else injectLoop template selector "" 0 idx.

Definition resolveSelector (parent key : string) : string :=
  if negb (indexOf key "&" 0 =? -1) then injectSelector key parent
  else if codeIs (charCodeAt key 0) 58 then parent +:+ key
  else if nonEmpty parent then parent +:+ " " +:+ key
  else key.

End NamesAndSelectors.

(** ** Regular expressions

    The builtin [RegExp] for the pattern sources [globToRegex] builds:
    literal characters, identity escapes of syntax characters, [.], the
    [*] quantifier on one atom, and the assertions [^] and [$].  No flag
    is set, so [.] excludes the line terminators and [$] holds at the end
    of the input only. *)

Module RegExp.

Inductive atom : Type :=
| AChar (c : ascii)
| ADot.

Inductive term : Type :=
| TBegin
| TEnd
| TAtom (a : atom)
| TStar (a : atom).

Definition regex : Type := list term.

Definition isOneOf (chars : string) (c : ascii) : bool :=
  existsb (Ascii.eqb c) (list_ascii_of_string chars).

(** The characters a backslash may precede as an identity escape. *)
Definition syntaxChars : string := "\^$+?.()|[]{}-*/".

(** The characters that are operators outside this fragment when they
    stand unescaped. *)
Definition operatorChars : string := "*+?()[]{}|".

(** [new RegExp(source)]; [None] is a source outside the fragment (for
    the builtin, a SyntaxError or a construct not modelled here). *)
Fixpoint parse (source : string) : option regex :=
  match source with
  | EmptyString => Some []
  | String c rest =>
      if Ascii.eqb c "^" then cons TBegin <$> parse rest
      else if Ascii.eqb c "$" then cons TEnd <$> parse rest
      else if Ascii.eqb c "\" then
        match rest with
        | String e rest' =>
            if isOneOf syntaxChars e then
              match rest' with
              | String q rest'' =>
                  if Ascii.eqb q "*"
                  then cons (TStar (AChar e)) <$> parse rest''
                  else cons (TAtom (AChar e)) <$> parse rest'
              | EmptyString => cons (TAtom (AChar e)) <$> parse rest'
              end
            else None
        | EmptyString => None
        end
      else
        let a := if Ascii.eqb c "." then Some ADot
                 else if isOneOf operatorChars c then None
                 else Some (AChar c) in
        match a with
        | None => None
        | Some a =>
            match rest with
            | String q rest' =>
                if Ascii.eqb q "*"
                then cons (TStar a) <$> parse rest'
                else cons (TAtom a) <$> parse rest
            | EmptyString => cons (TAtom a) <$> parse rest
            end
        end
  end.

(** Line terminators among the code units below 256: LF and CR. *)
Definition lineTerminator (c : ascii) : bool :=
  let code := N_of_ascii c in ((code =? 10) || (code =? 13))%N.

Definition atomMatches (a : atom) (c : ascii) : bool :=
  match a with
  | AChar c' => Ascii.eqb c' c
  | ADot => negb (lineTerminator c)
  end.

(** Does [r] match a prefix of the remaining input [s]?  [atStart] tells
    whether the current position is the start of the whole input. *)
Fixpoint matchHere (r : regex) (atStart : bool) (s : string) : bool :=
  match r with
  | [] => true
  | TBegin :: r' => atStart && matchHere r' atStart s
  | TEnd :: r' => negb (nonEmpty s) && matchHere r' atStart s
  | TAtom a :: r' =>
      match s with
      | String c s' => atomMatches a c && matchHere r' false s'
      | EmptyString => false
      end
  | TStar a :: r' =>
      (fix star (atStart : bool) (s : string) : bool :=
         matchHere r' atStart s
         || match s with
            | String c s' => atomMatches a c && star false s'
            | EmptyString => false
            end) atStart s
  end.

(** [re.test(s)]: a match starting at some position of [s]. *)
Fixpoint testFrom (r : regex) (atStart : bool) (s : string) : bool :=
  matchHere r atStart s
  || match s with
     | String _ s' => testFrom r false s'
     | EmptyString => false
     end.

Definition test (r : regex) (s : string) : bool := testFrom r true s.

End RegExp.

(** ** The exclusion matcher *)

(** [s.replace(/[class]/g, f)] for a character class: every character of
    the class is replaced by the text [f] gives for it. *)
Fixpoint replaceChars (inClass : ascii -> bool) (f : ascii -> string)
  (s : string) : string :=
  match s with
  | EmptyString => ""
  | String c s' =>
      (if inClass c then f c else String c "") +:+ replaceChars inClass f s'
  end.

(** The class [[\\^$+?.()|[\]{}-]] of [globToRegex]. *)
Definition escapeClass : string := "\^$+?.()|[]{}-".

(** The source text [globToRegex] hands to [new RegExp]. *)
Definition globSource (glob : string) : string :=
  let escaped :=
    replaceChars (RegExp.isOneOf escapeClass) (fun c => String "\" (String c ""))
      glob in
  let withWildcards :=
    replaceChars (Ascii.eqb "*") (fun _ => ".*") escaped in
  "^" +:+ withWildcards +:+ "$".

(** [globToRegex(glob)].  The source always compiles (lemma
    [globToRegex_compiles]), so the second branch is never taken. *)
Definition globToRegex (glob : string) : RegExp.regex :=
  match RegExp.parse (globSource glob) with
  | Some re => re
  | None => []
  end.

Definition createOmitMatcher (omit : option (list string)) : string -> bool :=
  let omitMatchers := map globToRegex (default [] omit) in
  match omitMatchers with
  | [] => fun _ => false
  | _ => fun selector => existsb (fun re => RegExp.test re selector) omitMatchers
  end.

(** ** Options *)

Inductive PlumetFormat : Type :=
| FormatDefault
| FormatMinify
| FormatPretty.

Definition isPretty (format : PlumetFormat) : bool :=
  match format with FormatPretty => true | _ => false end.

Definition isDefault (format : PlumetFormat) : bool :=
  match format with FormatDefault => true | _ => false end.

Record CompileOptions : Type := {
  omit : option (list string);
  format : option PlumetFormat
}.

Inductive CompileOptionsInput : Type :=
| OptionsArray (patterns : list string)
| OptionsObject (options : CompileOptions)
| OptionsUndefined.

Definition normalizeOptions (options : CompileOptionsInput) : CompileOptions :=
  match options with
  | OptionsArray patterns => {| omit := Some patterns; format := None |}
  | OptionsObject o => o
  | OptionsUndefined => {| omit := None; format := None |}
  end.

(** ** Declarations *)

Definition declaration : Type := string * string.

Definition collectDeclarations (props : jsval) (cache : gmap string string)
  : list declaration * gmap string string :=
  if falsy props then ([], cache)
  else
    fold_left
      (fun (st : list declaration * gmap string string) (kv : string * jsval) =>
         let '(entries, cache) := st in
         let '(k, v) := kv in
         if nullish v then (entries, cache)
         else
           let '(name, cache') := kebabCase k cache in
           (entries ++ [(name, toString v)], cache'))
      (forIn props) ([], cache).

(** ** The format renderer *)

Definition indent (depth : nat) (format : PlumetFormat) : string :=
  if negb (isPretty format) then "" else JsString.repeat "  " depth.

Definition writeRule (out : list string) (selector : string)
  (declarations : list declaration) (depth : nat) (format : PlumetFormat)
  : list string :=
  if isPretty format then
    let base := indent depth format in
    let out := out ++ [base; selector; " {" +:+ nl] in
    let out :=
      fold_left
        (fun out '(prop, value) =>
           out ++ [indent (depth + 1) format; prop; ": "; value; ";" +:+ nl])
        declarations out in
    out ++ [base; "}" +:+ nl]
  else
    let out := out ++ [selector; "{"] in
    let out :=
      fold_left (fun out '(prop, value) => out ++ [prop; ":"; value; ";"])
        declarations out in
    let out := out ++ ["}"] in
    if isDefault format then out ++ [nl] else out.

Definition writeDeclarations (out : list string)
  (declarations : list declaration) (depth : nat) (format : PlumetFormat)
  : list string :=
  if isPretty format then
    fold_left
      (fun out '(prop, value) =>
         out ++ [indent depth format; prop; ": "; value; ";" +:+ nl])
      declarations out
  else
    fold_left (fun out '(prop, value) => out ++ [prop; ":"; value; ";"])
      declarations out.

Definition wrapAtRule (name body : string) (depth : nat)
  (format : PlumetFormat) : string :=
  if negb (nonEmpty body) then ""
  else if isPretty format then
    let base := indent depth format in
    base +:+ name +:+ " {" +:+ nl +:+ body +:+ base +:+ "}" +:+ nl
  else
    let newline := if isDefault format then nl else "" in
    name +:+ "{" +:+ body +:+ "}" +:+ newline.

(** ** The tree walker *)

(** [!key || key === "$"]. *)
Definition skippedKey (key : string) : bool :=
  negb (nonEmpty key) || String.eqb key "$".

(** [!child || typeof child !== "object"]. *)
Definition notAnObject (child : jsval) : bool :=
  falsy child || negb (typeofObject child).

(** [key.charCodeAt(0) === 64]. *)
Definition isAtRuleKey (key : string) : bool :=
  codeIs (charCodeAt key 0) 64%Z.

(** The walker state threaded through a loop over the keys of a node: the
    array being pushed to, and the cache. *)
Abbreviation walk := (list string * gmap string string)%type.

(** [compileRuleNode] returns the array [out] after its pushes, and the
    cache; its boolean result [out.length > startLength], which no caller
    reads, is [compileRuleNode_result] below.  A style that is not an
    object has no keys to visit; the walker only passes objects. *)
Fixpoint compileRuleNode (selector : string) (style : jsval) (depth : nat)
  (format : PlumetFormat) (isOmitted : string -> bool) (out : list string)
  (cache : gmap string string) {struct style} : walk :=
  let '(declarations, cache) := collectDeclarations (get style "$") cache in
  let out :=
    match declarations with
    | [] => out
    | _ => writeRule out selector declarations depth format
    end in
  match style with
  | JObject props =>
      fold_left
        (fun (st : walk) (kv : string * jsval) =>
           let '(out, cache) := st in
           let '(key, child) := kv in
           if skippedKey key then st
           else if notAnObject child then st
           else if isAtRuleKey key then
             let bodyParts : list string := [] in
             let '(childDecl, cache) :=
               collectDeclarations (get child "$") cache in
             let bodyParts :=
               match childDecl with
               | [] => bodyParts
               | _ => writeDeclarations bodyParts childDecl (depth + 1) format
               end in
             let '(bodyParts, cache) :=
               match child with
               | JObject childProps =>
                   fold_left
                     (fun (st : walk) (kv : string * jsval) =>
                        let '(bodyParts, cache) := st in
                        let '(childKey, nested) := kv in
                        if skippedKey childKey then st
                        else if notAnObject nested then st
                        else if isAtRuleKey childKey then
                          let '(nestedBody, cache) :=
                            compileAtRule childKey nested selector (depth + 1)
                              format isOmitted cache in
                          if nonEmpty nestedBody
                          then (bodyParts ++ [nestedBody], cache)
                          else (bodyParts, cache)
                        else
                          let nestedSelector :=
                            resolveSelector selector childKey in
                          if isOmitted nestedSelector then st
                          else
                            compileRuleNode nestedSelector nested (depth + 1)
                              format isOmitted bodyParts cache)
                     childProps (bodyParts, cache)
               | _ => (bodyParts, cache)
               end in
             let body := join bodyParts in
             if nonEmpty body
             then (out ++ [wrapAtRule key body depth format], cache)
             else (out, cache)
           else
             let nextSelector := resolveSelector selector key in
             if isOmitted nextSelector then st
             else
               compileRuleNode nextSelector child depth format isOmitted
                 out cache)
        props (out, cache)
  | _ => (out, cache)
  end

with compileAtRule (name : string) (style : jsval) (parentSelector : string)
  (depth : nat) (format : PlumetFormat) (isOmitted : string -> bool)
  (cache : gmap string string) {struct style}
  : string * gmap string string :=
  let bodyParts : list string := [] in
  let '(declarations, cache) := collectDeclarations (get style "$") cache in
  let bodyParts :=
    match declarations with
    | [] => bodyParts
    | _ => writeDeclarations bodyParts declarations (depth + 1) format
    end in
  let '(bodyParts, cache) :=
    match style with
    | JObject props =>
        fold_left
          (fun (st : walk) (kv : string * jsval) =>
             let '(bodyParts, cache) := st in
             let '(key, child) := kv in
             if skippedKey key then st
             else if notAnObject child then st
             else if isAtRuleKey key then
               let '(nestedBody, cache) :=
                 compileAtRule key child parentSelector (depth + 1) format
                   isOmitted cache in
               if nonEmpty nestedBody
               then (bodyParts ++ [nestedBody], cache)
               else (bodyParts, cache)
             else
               let nextSelector := resolveSelector parentSelector key in
               if isOmitted nextSelector then st
               else
                 compileRuleNode nextSelector child (depth + 1) format
                   isOmitted bodyParts cache)
          props (bodyParts, cache)
    | _ => (bodyParts, cache)
    end in
  let body := join bodyParts in
  (wrapAtRule name body depth format, cache).

(** The boolean [compileRuleNode] returns: [out.length > startLength]. *)
Definition compileRuleNode_result (selector : string) (style : jsval)
  (depth : nat) (format : PlumetFormat) (isOmitted : string -> bool)
  (out : list string) (cache : gmap string string) : bool :=
  (length out <? length
     (fst (compileRuleNode selector style depth format isOmitted out cache)))%nat.

(** [compileStyle(style, options)].  A truthy style that is not an object
    (a primitive) has no property that is one, so nothing is pushed. *)
Definition compileStyle (style : jsval) (options : CompileOptionsInput)
  (cache : gmap string string) : string * gmap string string :=
  if falsy style then ("", cache)
  else
    let o := normalizeOptions options in
    let format := default FormatDefault (format o) in
    let isOmitted := createOmitMatcher (omit o) in
    let out : list string := [] in
    let '(out, cache) :=
      fold_left
        (fun (st : walk) (kv : string * jsval) =>
           let '(out, cache) := st in
           let '(key, child) := kv in
           if skippedKey key then st
           else if notAnObject child then st
           else if isAtRuleKey key then
             let '(body, cache) :=
               compileAtRule key child "" 0 format isOmitted cache in
             if nonEmpty body then (out ++ [body], cache) else (out, cache)
           else
             let selector := resolveSelector "" key in
             if isOmitted selector then st
             else compileRuleNode selector child 0 format isOmitted out cache)
        (match style with JObject props => props | _ => [] end)
        (out, cache) in
    (join out, cache).

(** ** The walker read without the cache

    The same functions with every [kebabCase(k)] read as the result of its
    loop, which is what a call returns when the cache has no entry for
    [k].  The theorems below relate the two readings and use this one to
    follow the walk. *)

Module CacheFree.

Definition kebabCase (key : string) : string := kebabLoop key "".

Definition collectDeclarations (props : jsval) : list declaration :=
  if falsy props then []
  else
    fold_left
      (fun (entries : list declaration) (kv : string * jsval) =>
         let '(k, v) := kv in
         if nullish v then entries
         else entries ++ [(kebabCase k, toString v)])
      (forIn props) [].

Fixpoint compileRuleNode (selector : string) (style : jsval) (depth : nat)
  (format : PlumetFormat) (isOmitted : string -> bool) (out : list string)
  {struct style} : list string :=
  let declarations := collectDeclarations (get style "$") in
  let out :=
    match declarations with
    | [] => out
    | _ => writeRule out selector declarations depth format
    end in
  match style with
  | JObject props =>
      fold_left
        (fun (out : list string) (kv : string * jsval) =>
           let '(key, child) := kv in
           if skippedKey key then out
           else if notAnObject child then out
           else if isAtRuleKey key then
             let bodyParts : list string := [] in
             let childDecl := collectDeclarations (get child "$") in
             let bodyParts :=
               match childDecl with
               | [] => bodyParts
               | _ => writeDeclarations bodyParts childDecl (depth + 1) format
               end in
             let bodyParts :=
               match child with
               | JObject childProps =>
                   fold_left
                     (fun (bodyParts : list string) (kv : string * jsval) =>
                        let '(childKey, nested) := kv in
                        if skippedKey childKey then bodyParts
                        else if notAnObject nested then bodyParts
                        else if isAtRuleKey childKey then
                          let nestedBody :=
                            compileAtRule childKey nested selector
                              (depth + 1) format isOmitted in
                          if nonEmpty nestedBody
                          then bodyParts ++ [nestedBody]
                          else bodyParts
                        else
                          let nestedSelector :=
                            resolveSelector selector childKey in
                          if isOmitted nestedSelector then bodyParts
                          else
                            compileRuleNode nestedSelector nested
                              (depth + 1) format isOmitted bodyParts)
                     childProps bodyParts
               | _ => bodyParts
               end in
             let body := join bodyParts in
             if nonEmpty body
             then out ++ [wrapAtRule key body depth format]
             else out
           else
             let nextSelector := resolveSelector selector key in
             if isOmitted nextSelector then out
             else
               compileRuleNode nextSelector child depth format isOmitted out)
        props out
  | _ => out
  end

with compileAtRule (name : string) (style : jsval) (parentSelector : string)
  (depth : nat) (format : PlumetFormat) (isOmitted : string -> bool)
  {struct style} : string :=
  let bodyParts : list string := [] in
  let declarations := collectDeclarations (get style "$") in
  let bodyParts :=
    match declarations with
    | [] => bodyParts
    | _ => writeDeclarations bodyParts declarations (depth + 1) format
    end in
  let bodyParts :=
    match style with
    | JObject props =>
        fold_left
          (fun (bodyParts : list string) (kv : string * jsval) =>
             let '(key, child) := kv in
             if skippedKey key then bodyParts
             else if notAnObject child then bodyParts
             else if isAtRuleKey key then
               let nestedBody :=
                 compileAtRule key child parentSelector (depth + 1) format
                   isOmitted in
               if nonEmpty nestedBody
               then bodyParts ++ [nestedBody]
               else bodyParts
             else
               let nextSelector := resolveSelector parentSelector key in
               if isOmitted nextSelector then bodyParts
               else
                 compileRuleNode nextSelector child (depth + 1) format
                   isOmitted bodyParts)
          props bodyParts
    | _ => bodyParts
    end in
  let body := join bodyParts in
  wrapAtRule name body depth format.

(** The loop of [compileStyle] over the top-level keys, for a format and
    a matcher already chosen. *)
Definition compileRoot (style : jsval) (format : PlumetFormat)
  (isOmitted : string -> bool) : string :=
  if falsy style then ""
  else
    join
      (fold_left
         (fun (out : list string) (kv : string * jsval) =>
            let '(key, child) := kv in
            if skippedKey key then out
            else if notAnObject child then out
            else if isAtRuleKey key then
              let body := compileAtRule key child "" 0 format isOmitted in
              if nonEmpty body then out ++ [body] else out
            else
              let selector := resolveSelector "" key in
              if isOmitted selector then out
              else compileRuleNode selector child 0 format isOmitted out)
         (match style with JObject props => props | _ => [] end)
         []).

Definition compileStyle (style : jsval) (options : CompileOptionsInput)
  : string :=
  let o := normalizeOptions options in
  compileRoot style (default FormatDefault (format o))
    (createOmitMatcher (omit o)).

End CacheFree.

(** * Properties *)

(** ** The cache is a memo table of [kebabLoop] *)

(** The invariant of [kebabCache]: an entry for [k] holds what the loop of
    [kebabCase] computes for [k]. *)
Definition consistent (cache : gmap string string) : Prop :=
  forall k v, cache !! k = Some v -> v = kebabLoop k "".

(** The states of the cache.  It is private to the module and written by
    [kebabCase] alone: it is empty when the module is loaded, and changes
    by calls of [kebabCase] only. *)
Inductive reachable : gmap string string -> Prop :=
| reachable_empty : reachable ∅
| reachable_call key cache :
    reachable cache -> reachable (snd (kebabCase key cache)).

Lemma consistent_empty : consistent ∅.
Proof. intros k v H. rewrite lookup_empty in H. discriminate. Qed.

Lemma consistent_insert cache k :
  consistent cache -> consistent (<[k := kebabLoop k ""]> cache).
Proof.
  intros Hc k' v. destruct (decide (k = k')) as [->|Hne].
  - rewrite lookup_insert_eq. congruence.
  - rewrite lookup_insert_ne by exact Hne. apply Hc.
Qed.

Lemma kebabCase_consistent key cache :
  consistent cache ->
  fst (kebabCase key cache) = CacheFree.kebabCase key /\
  consistent (snd (kebabCase key cache)).
Proof.
  intros Hc. unfold kebabCase, CacheFree.kebabCase.
  destruct (cache !! key) as [cached|] eqn:E.
  - destruct (nonEmpty cached); simpl.
    + split; [apply Hc; exact E | exact Hc].
    + split; [reflexivity | apply consistent_insert; exact Hc].
  - simpl. split; [reflexivity | apply consistent_insert; exact Hc].
Qed.

Lemma reachable_consistent cache : reachable cache -> consistent cache.
Proof.
  induction 1 as [|key cache _ IH]; [apply consistent_empty|].
  apply kebabCase_consistent. exact IH.
Qed.

(** With a reachable cache, [kebabCase] returns what its loop computes. *)
Lemma kebabCase_reachable key cache :
  reachable cache ->
  fst (kebabCase key cache) = CacheFree.kebabCase key /\
  reachable (snd (kebabCase key cache)).
Proof.
  intros Hc. split; [|apply reachable_call, Hc].
  apply kebabCase_consistent, reachable_consistent, Hc.
Qed.

(** A loop that threads the cache agrees with the loop that does not, as
    long as every step does. *)
Lemma fold_left_agree {A B : Type} (f : A * gmap string string -> B -> A * gmap string string)
  (g : A -> B -> A) (l : list B) :
  Forall (fun x => forall a c, reachable c ->
            fst (f (a, c) x) = g a x /\ reachable (snd (f (a, c) x))) l ->
  forall a c, reachable c ->
    fst (fold_left f l (a, c)) = fold_left g l a /\
    reachable (snd (fold_left f l (a, c))).
Proof.
  induction 1 as [|x l Hx _ IH]; intros a c Hc; simpl; [auto|].
  destruct (Hx a c Hc) as [E1 E2].
  destruct (f (a, c) x) as [a' c']; simpl in *. subst a'. apply IH, E2.
Qed.

Lemma collectDeclarations_reachable props cache :
  reachable cache ->
  fst (collectDeclarations props cache) = CacheFree.collectDeclarations props /\
  reachable (snd (collectDeclarations props cache)).
Proof.
  intros Hc. unfold collectDeclarations, CacheFree.collectDeclarations.
  destruct (falsy props); [auto|].
  apply fold_left_agree; [|exact Hc].
  apply Forall_forall. intros [k v] _ a c Hc'.
  destruct (nullish v); [auto|].
  destruct (kebabCase_reachable k c Hc') as [E1 E2].
  destruct (kebabCase k c) as [name c']; simpl in *. subst name. auto.
Qed.

(** ** One visit of a child key

    The three loops of the walker (over the keys of a rule node, of an
    at-rule node and of the root) have the same body up to the selector
    and the depth in force: [visit] is that body, with the at-rule branch
    written as a call of [compileAtRule]. *)

Definition visit (selector : string) (depth : nat) (format : PlumetFormat)
  (isOmitted : string -> bool) (st : walk) (kv : string * jsval) : walk :=
  let '(out, cache) := st in
  let '(key, child) := kv in
  if skippedKey key then st
  else if notAnObject child then st
  else if isAtRuleKey key then
    let '(body, cache) :=
      compileAtRule key child selector depth format isOmitted cache in
    if nonEmpty body then (out ++ [body], cache) else (out, cache)
  else
    let next := resolveSelector selector key in
    if isOmitted next then st
    else compileRuleNode next child depth format isOmitted out cache.

Module CacheFreeVisit.

Definition visit (selector : string) (depth : nat) (format : PlumetFormat)
  (isOmitted : string -> bool) (out : list string) (kv : string * jsval)
  : list string :=
  let '(key, child) := kv in
  if skippedKey key then out
  else if notAnObject child then out
  else if isAtRuleKey key then
    let body :=
      CacheFree.compileAtRule key child selector depth format isOmitted in
    if nonEmpty body then out ++ [body] else out
  else
    let next := resolveSelector selector key in
    if isOmitted next then out
    else CacheFree.compileRuleNode next child depth format isOmitted out.

(** What a rule node pushes for its own declarations. *)
Definition ownRule (out : list string) (selector : string) (style : jsval)
  (depth : nat) (format : PlumetFormat) : list string :=
  let declarations := CacheFree.collectDeclarations (get style "$") in
  match declarations with
  | [] => out
  | _ => writeRule out selector declarations depth format
  end.

(** What an at-rule node starts its body with. *)
Definition ownDeclarations (style : jsval) (depth : nat)
  (format : PlumetFormat) : list string :=
  let declarations := CacheFree.collectDeclarations (get style "$") in
  match declarations with
  | [] => []
  | _ => writeDeclarations [] declarations (depth + 1) format
  end.

End CacheFreeVisit.

Lemma append_nonEmpty_r a b : nonEmpty b = true -> nonEmpty (a +:+ b) = true.
Proof. destruct a; simpl; auto. Qed.

Lemma append_nonEmpty_l a b : nonEmpty a = true -> nonEmpty (a +:+ b) = true.
Proof. intros H. destruct a; [discriminate|reflexivity]. Qed.

Lemma notAnObject_false v :
  notAnObject v = false -> exists props, v = JObject props.
Proof.
  unfold notAnObject. destruct v; simpl; intros H;
    rewrite ?orb_true_r in H; try discriminate.
  eexists. reflexivity.
Qed.

Lemma nonEmpty_append a b : nonEmpty (a +:+ b) = nonEmpty a || nonEmpty b.
Proof. destruct a; reflexivity. Qed.

Lemma nonEmpty_wrapAtRule name body depth fmt :
  nonEmpty (wrapAtRule name body depth fmt) = nonEmpty body.
Proof.
  unfold wrapAtRule. destruct (nonEmpty body) eqn:E; [|reflexivity].
  cbn [negb]. destruct (isPretty fmt);
    rewrite !nonEmpty_append, ?E; cbn [nonEmpty]; rewrite ?orb_true_r;
    reflexivity.
Qed.

Lemma wrapAtRule_empty name depth fmt : wrapAtRule name "" depth fmt = "".
Proof. reflexivity. Qed.

Lemma fold_left_ext_in {A B : Type} (f g : A -> B -> A) (l : list B) :
  (forall a x, In x l -> f a x = g a x) ->
  forall a, fold_left f l a = fold_left g l a.
Proof.
  induction l as [|x l IH]; intros H a; simpl; [reflexivity|].
  rewrite (H a x) by (left; reflexivity).
  apply IH. intros a' y Hy. apply H. right. exact Hy.
Qed.

(** The body of an at-rule that is a child of a rule node, which
    [compileRuleNode] builds in line, is the one [compileAtRule] builds for
    the same key at the same selector and depth. *)
Lemma compileRuleNode_unfold selector props depth fmt isOmitted out :
  CacheFree.compileRuleNode selector (JObject props) depth fmt isOmitted out =
  fold_left (CacheFreeVisit.visit selector depth fmt isOmitted) props
    (CacheFreeVisit.ownRule out selector (JObject props) depth fmt).
Proof.
  cbn [CacheFree.compileRuleNode get]. unfold CacheFreeVisit.ownRule. cbn [get].
  apply fold_left_ext_in. intros a [key child] _.
  unfold CacheFreeVisit.visit.
  destruct (skippedKey key); [reflexivity|].
  destruct (notAnObject child) eqn:Hobj; [reflexivity|].
  destruct (isAtRuleKey key); [|reflexivity].
  destruct (notAnObject_false _ Hobj) as [childProps ->].
  cbn [CacheFree.compileAtRule get].
  rewrite nonEmpty_wrapAtRule. reflexivity.
Qed.

Lemma compileAtRule_unfold name props parent depth fmt isOmitted :
  CacheFree.compileAtRule name (JObject props) parent depth fmt isOmitted =
  wrapAtRule name
    (join (fold_left (CacheFreeVisit.visit parent (depth + 1) fmt isOmitted)
             props (CacheFreeVisit.ownDeclarations (JObject props) depth fmt)))
    depth fmt.
Proof. reflexivity. Qed.

Lemma compileRoot_unfold props fmt isOmitted :
  CacheFree.compileRoot (JObject props) fmt isOmitted =
  join (fold_left (CacheFreeVisit.visit "" 0 fmt isOmitted) props []).
Proof. reflexivity. Qed.

Lemma compileRuleNode_cache_unfold selector props depth fmt isOmitted out cache :
  compileRuleNode selector (JObject props) depth fmt isOmitted out cache =
  let '(declarations, cache) :=
    collectDeclarations (lookup "$" props) cache in
  fold_left (visit selector depth fmt isOmitted) props
    (match declarations with
     | [] => out
     | _ => writeRule out selector declarations depth fmt
     end, cache).
Proof.
  cbn [compileRuleNode get].
  destruct (collectDeclarations (lookup "$" props) cache) as [decls cache1].
  apply fold_left_ext_in. intros [a c] [key child] _.
  unfold visit.
  destruct (skippedKey key); [reflexivity|].
  destruct (notAnObject child) eqn:Hobj; [reflexivity|].
  destruct (isAtRuleKey key); [|reflexivity].
  destruct (notAnObject_false _ Hobj) as [childProps ->].
  cbn [compileAtRule get].
  destruct (collectDeclarations (lookup "$" childProps) c) as [childDecl c1].
  match goal with
  | |- context [fold_left ?f childProps ?a] =>
      destruct (fold_left f childProps a) as [bodyParts c2]
  end.
  rewrite nonEmpty_wrapAtRule. reflexivity.
Qed.

Lemma compileAtRule_cache_unfold name props parent depth fmt isOmitted cache :
  compileAtRule name (JObject props) parent depth fmt isOmitted cache =
  let '(declarations, cache) :=
    collectDeclarations (lookup "$" props) cache in
  let '(bodyParts, cache) :=
    fold_left (visit parent (depth + 1) fmt isOmitted) props
      (match declarations with
       | [] => []
       | _ => writeDeclarations [] declarations (depth + 1) fmt
       end, cache) in
  (wrapAtRule name (join bodyParts) depth fmt, cache).
Proof. reflexivity. Qed.

(** What the walker computes with a reachable cache is what it computes
    without the cache, and the cache stays reachable. *)
Definition agrees (style : jsval) : Prop :=
  (forall sel d fmt om out c, reachable c ->
     fst (compileRuleNode sel style d fmt om out c)
       = CacheFree.compileRuleNode sel style d fmt om out /\
     reachable (snd (compileRuleNode sel style d fmt om out c))) /\
  (forall name parent d fmt om c, reachable c ->
     fst (compileAtRule name style parent d fmt om c)
       = CacheFree.compileAtRule name style parent d fmt om /\
     reachable (snd (compileAtRule name style parent d fmt om c))).

Lemma visit_agrees key child :
  agrees child ->
  forall sel d fmt om a c, reachable c ->
    fst (visit sel d fmt om (a, c) (key, child))
      = CacheFreeVisit.visit sel d fmt om a (key, child) /\
    reachable (snd (visit sel d fmt om (a, c) (key, child))).
Proof.
  intros [Hrule Hat] sel d fmt om a c Hc.
  unfold visit, CacheFreeVisit.visit.
  destruct (skippedKey key); [auto|].
  destruct (notAnObject child); [auto|].
  destruct (isAtRuleKey key).
  - destruct (Hat key sel d fmt om c Hc) as [E1 E2].
    destruct (compileAtRule key child sel d fmt om c) as [body c'].
    simpl in E1, E2. subst body.
    destruct (nonEmpty _); auto.
  - destruct (om (resolveSelector sel key)); [auto|].
    apply Hrule, Hc.
Qed.

Lemma walker_agrees style : agrees style.
Proof.
  induction style as [ | | b | z | s | props IH] using jsval_nested_ind.
  1-5: split; intros; cbn; auto.
  assert (Hvisit : forall sel d fmt om,
             Forall (fun kv => forall a c, reachable c ->
                       fst (visit sel d fmt om (a, c) kv)
                         = CacheFreeVisit.visit sel d fmt om a kv /\
                       reachable (snd (visit sel d fmt om (a, c) kv))) props).
  { intros sel d fmt om. eapply Forall_impl; [exact IH|].
    intros [key child] Hchild. apply visit_agrees, Hchild. }
  split.
  - intros sel d fmt om out c Hc.
    rewrite compileRuleNode_cache_unfold, compileRuleNode_unfold.
    unfold CacheFreeVisit.ownRule. cbn [get].
    destruct (collectDeclarations_reachable (lookup "$" props) c Hc) as [E1 E2].
    destruct (collectDeclarations (lookup "$" props) c) as [decls c1].
    simpl in E1, E2. subst decls.
    apply fold_left_agree; [apply Hvisit | exact E2].
  - intros name parent d fmt om c Hc.
    rewrite compileAtRule_cache_unfold, compileAtRule_unfold.
    unfold CacheFreeVisit.ownDeclarations. cbn [get].
    destruct (collectDeclarations_reachable (lookup "$" props) c Hc) as [E1 E2].
    destruct (collectDeclarations (lookup "$" props) c) as [decls c1].
    simpl in E1, E2. subst decls.
    match goal with
    | |- context [fold_left ?f props (?a, c1)] =>
        destruct (fold_left_agree f (CacheFreeVisit.visit parent (d + 1) fmt om)
                    props (Hvisit parent (d + 1) fmt om) a c1 E2) as [F1 F2];
        destruct (fold_left f props (a, c1)) as [bodyParts c2]
    end.
    simpl in F1, F2. subst bodyParts. auto.
Qed.

Lemma compileStyle_agrees style options cache :
  reachable cache ->
  fst (compileStyle style options cache) = CacheFree.compileStyle style options /\
  reachable (snd (compileStyle style options cache)).
Proof.
  intros Hc. unfold compileStyle, CacheFree.compileStyle, CacheFree.compileRoot.
  destruct (falsy style); [auto|].
  set (fmt := default FormatDefault _). set (om := createOmitMatcher _).
  set (props := match style with JObject props => props | _ => [] end).
  assert (Hvisit : Forall (fun kv => forall a c, reachable c ->
                       fst (visit "" 0 fmt om (a, c) kv)
                         = CacheFreeVisit.visit "" 0 fmt om a kv /\
                       reachable (snd (visit "" 0 fmt om (a, c) kv))) props).
  { apply Forall_forall. intros [key child] _. apply visit_agrees, walker_agrees. }
  destruct (fold_left_agree _ _ props Hvisit [] cache Hc) as [F1 F2].
  change (fold_left _ props ([], cache))
    with (fold_left (visit "" 0 fmt om) props ([], cache)).
  destruct (fold_left (visit "" 0 fmt om) props ([], cache)) as [out c2].
  simpl in F1, F2. subst out. auto.
Qed.

(** ** The selector resolver *)

Section StringFacts.

Lemma append_assoc (a b c : string) : (a +:+ b) +:+ c = a +:+ (b +:+ c).
Proof. induction a as [|x a IH]; simpl; [reflexivity|]. now rewrite IH. Qed.

Lemma append_empty_r (a : string) : a +:+ "" = a.
Proof. induction a as [|x a IH]; simpl; [reflexivity|]. now rewrite IH. Qed.

Lemma length_append (a b : string) :
  String.length (a +:+ b) = (String.length a + String.length b)%nat.
Proof. induction a as [|x a IH]; simpl; [reflexivity|]. now rewrite IH. Qed.

Lemma substring_whole (a : string) : substring 0 (String.length a) a = a.
Proof. induction a as [|x a IH]; simpl; [reflexivity|]. now rewrite IH. Qed.

Lemma substring_prefix (a b : string) :
  substring 0 (String.length a) (a +:+ b) = a.
Proof.
  induction a as [|x a IH]; simpl; [destruct b; reflexivity|]. now rewrite IH.
Qed.

Lemma substring_skip (pre s : string) (n m : nat) :
  substring (String.length pre + n) m (pre +:+ s) = substring n m s.
Proof. induction pre as [|x pre IH]; simpl; [reflexivity|]. exact IH. Qed.

Lemma slice_middle (pre a rest : string) :
  slice (pre +:+ (a +:+ rest)) (Z.of_nat (String.length pre))
    (Z.of_nat (String.length pre) + Z.of_nat (String.length a)) = a.
Proof.
  unfold slice, relIndex. rewrite !length_append.
  destruct (Z.ltb_spec (Z.of_nat (String.length pre)) 0); [lia|].
  destruct (Z.ltb_spec
              (Z.of_nat (String.length pre) + Z.of_nat (String.length a)) 0);
    [lia|].
  rewrite !Z.min_l by lia.
  replace (Z.to_nat (Z.of_nat (String.length pre)))
    with (String.length pre + 0)%nat by lia.
  replace (Z.to_nat _) with (String.length a) by lia.
  rewrite substring_skip. apply substring_prefix.
Qed.

Lemma sliceFrom_suffix (pre a : string) :
  sliceFrom (pre +:+ a) (Z.of_nat (String.length pre)) = a.
Proof.
  unfold sliceFrom.
  pose proof (slice_middle pre a "") as H.
  rewrite append_empty_r in H. rewrite <- H at 3.
  f_equal. rewrite length_append. lia.
Qed.

End StringFacts.

(** The text of [template] with every [&] replaced by [parent] and every
    other character kept: what the specification asks of the resolver for
    a key with a parent reference. *)
Fixpoint replaceAll (template parent : string) : string :=
  match template with
  | EmptyString => ""
  | String c rest =>
      (if Ascii.eqb c "&" then parent else String c "")
        +:+ replaceAll rest parent
  end.

(** No [&] among the characters of a string. *)
Fixpoint ampFree (s : string) : bool :=
  match s with
  | EmptyString => true
  | String c rest => negb (Ascii.eqb c "&") && ampFree rest
  end.

Section InjectSelector.

Local Open Scope Z_scope.

Lemma injectLoop_step template selector acc last idx :
  injectLoop template selector acc last idx =
  if idx =? -1 then acc +:+ sliceFrom template last
  else injectLoop template selector
         (acc +:+ (slice template last idx +:+ selector))
         (idx + 1) (indexOf template "&" (idx + 1)).
Proof.
  funelim (injectLoop template selector acc last idx);
    rewrite e; reflexivity.
Qed.

Lemma indexFrom_skip x y ch i from :
  i + Z.of_nat (String.length x) <= from ->
  indexFrom (x +:+ y) ch i from
  = indexFrom y ch (i + Z.of_nat (String.length x)) from.
Proof.
  revert i. induction x as [|c x IH]; intros i H; simpl in *.
  - f_equal. lia.
  - destruct (Z.leb_spec from i); [lia|]. simpl.
    rewrite IH by lia. f_equal. lia.
Qed.

Lemma indexFrom_ampFree a y i from :
  ampFree a = true ->
  indexFrom (a +:+ y) "&" i from
  = indexFrom y "&" (i + Z.of_nat (String.length a)) from.
Proof.
  revert i. induction a as [|c a IH]; intros i H; simpl in *.
  - f_equal. lia.
  - apply andb_true_iff in H as [Hc Ha].
    apply negb_true_iff in Hc. rewrite Hc, andb_false_r.
    rewrite IH by exact Ha. f_equal. lia.
Qed.

Lemma indexOf_pending pre a rest :
  ampFree a = true ->
  indexOf (pre +:+ (a +:+ rest)) "&" (Z.of_nat (String.length pre))
  = indexFrom rest "&"
      (Z.of_nat (String.length pre) + Z.of_nat (String.length a))
      (Z.of_nat (String.length pre)).
Proof.
  intros Ha. unfold indexOf.
  rewrite indexFrom_skip by lia. rewrite indexFrom_ampFree by exact Ha.
  reflexivity.
Qed.

Lemma ampFree_snoc a c :
  ampFree a = true -> Ascii.eqb c "&" = false ->
  ampFree (a +:+ String c "") = true.
Proof.
  intros Ha Hc. induction a as [|x a IH]; simpl in *.
  - now rewrite Hc.
  - apply andb_true_iff in Ha as [Hx Ha]. rewrite Hx. simpl. now apply IH.
Qed.

(** The loop invariant: with [pre] already copied into [acc] (its
    references replaced), [a] the reference-free text scanned since
    [last], and [rest] still to scan. *)
Lemma injectLoop_invariant selector rest :
  forall pre a acc,
    ampFree a = true ->
    injectLoop (pre +:+ (a +:+ rest)) selector acc
      (Z.of_nat (String.length pre))
      (indexOf (pre +:+ (a +:+ rest)) "&" (Z.of_nat (String.length pre)))
    = acc +:+ (a +:+ replaceAll rest selector).
Proof.
  induction rest as [|c rest IH]; intros pre a acc Ha.
  - rewrite injectLoop_step, indexOf_pending by exact Ha. simpl.
    rewrite append_empty_r, sliceFrom_suffix. reflexivity.
  - destruct (Ascii.eqb c "&") eqn:Hc.
    + apply Ascii.eqb_eq in Hc. subst c.
      rewrite injectLoop_step, indexOf_pending by exact Ha. simpl.
      destruct (Z.leb_spec (Z.of_nat (String.length pre))
                  (Z.of_nat (String.length pre) + Z.of_nat (String.length a)));
        [|lia].
      simpl.
      destruct (Z.eqb_spec
                  (Z.of_nat (String.length pre) + Z.of_nat (String.length a))
                  (-1)); [lia|].
      rewrite slice_middle.
      specialize (IH (pre +:+ (a +:+ "&")) "" (acc +:+ (a +:+ selector))
                    eq_refl).
      simpl in IH. rewrite !append_assoc in IH. simpl in IH.
      rewrite !length_append in IH. simpl in IH.
      replace (Z.of_nat (String.length pre + (String.length a + 1)))
        with (Z.of_nat (String.length pre) + Z.of_nat (String.length a) + 1)
        in IH by lia.
      rewrite IH, ?append_assoc. reflexivity.
    + specialize (IH pre (a +:+ String c "") acc (ampFree_snoc a c Ha Hc)).
      rewrite !append_assoc in IH. simpl in IH. rewrite IH.
      simpl. rewrite Hc. rewrite ?append_assoc. reflexivity.
Qed.

Lemma injectSelector_replaceAll template selector :
  injectSelector template selector = replaceAll template selector.
Proof.
  unfold injectSelector.
  pose proof (injectLoop_invariant selector template "" "" "" eq_refl) as H.
  change ("" +:+ "" +:+ template) with template in H.
  change (Z.of_nat (String.length "")) with 0 in H.
  change ("" +:+ "" +:+ replaceAll template selector)
    with (replaceAll template selector) in H.
  destruct (indexOf template "&" 0 =? -1) eqn:E; [|exact H].
  rewrite injectLoop_step, E in H. rewrite <- H.
  symmetry. exact (sliceFrom_suffix "" template).
Qed.

End InjectSelector.

(** A key holds a parent reference when [&] is one of its characters. *)
Definition hasReference (key : string) : Prop :=
  In "&"%char (list_ascii_of_string key).

Lemma indexFrom_reference key i :
  hasReference key -> (0 <= i)%Z -> indexFrom key "&" i 0 <> (-1)%Z.
Proof.
  unfold hasReference. revert i.
  induction key as [|c key IH]; intros i H Hi; [destruct H|].
  simpl. destruct (Z.leb_spec 0 i); [|lia]. simpl.
  destruct (Ascii.eqb c "&") eqn:Hc; [lia|].
  destruct H as [H|H]; [subst c; discriminate Hc|].
  apply IH; [exact H | lia].
Qed.

Lemma indexOf_reference key :
  hasReference key -> (indexOf key "&" 0 =? -1)%Z = false.
Proof.
  intros H. apply Z.eqb_neq, indexFrom_reference; [exact H | lia].
Qed.

(** C3. The five composition laws of the specification hold, and for
    every parent and every key with at least one [&], the resolved
    selector is the key with each [&] replaced by the parent (by nothing
    when the parent is empty) and no joining character added. *)
Theorem resolveSelector_laws :
  resolveSelector "" "a" = "a" /\
  resolveSelector "#app" "a" = "#app a" /\
  resolveSelector "#app" ":hover" = "#app:hover" /\
  resolveSelector ".btn" "&.primary" = ".btn.primary" /\
  resolveSelector "X" "&-&" = "X-X" /\
  forall parent key,
    hasReference key -> resolveSelector parent key = replaceAll key parent.
Proof.
  repeat (split; [reflexivity|]).
  intros parent key H. unfold resolveSelector.
  rewrite (indexOf_reference key H). simpl.
  apply injectSelector_replaceAll.
Qed.

Lemma resolveSelector_laws_witness :
  hasReference "a > & + &" /\
  resolveSelector ".card" "a > & + &" = "a > .card + .card" /\
  resolveSelector "" "&:focus" = ":focus".
Proof.
  split; [|split].
  - unfold hasReference. simpl. tauto.
  - rewrite (proj2 (proj2 (proj2 (proj2 (proj2 resolveSelector_laws))))).
    + reflexivity.
    + unfold hasReference. simpl. tauto.
  - rewrite (proj2 (proj2 (proj2 (proj2 (proj2 resolveSelector_laws))))).
    + reflexivity.
    + unfold hasReference. simpl. tauto.
Defined.

(** ** The exclusion matcher *)

(** The terms [globToRegex] yields for one character of the glob. *)
Definition globTerm (c : ascii) : RegExp.term :=
  if Ascii.eqb c "*" then RegExp.TStar RegExp.ADot
  else RegExp.TAtom (RegExp.AChar c).

Definition globTerms (glob : string) : RegExp.regex :=
  map globTerm (list_ascii_of_string glob).

(** The source text the two [replace] calls yield for one character. *)
Definition encodeChar (c : ascii) : string :=
  if Ascii.eqb c "*" then ".*"
  else if RegExp.isOneOf escapeClass c then String "\" (String c "")
  else String c "".

Fixpoint encode (glob : string) : string :=
  match glob with
  | EmptyString => ""
  | String c rest => encodeChar c +:+ encode rest
  end.

Definition startsWithStar (s : string) : bool :=
  match s with
  | String q _ => Ascii.eqb q "*"
  | EmptyString => false
  end.

Section GlobSource.

#[local] Arguments Ascii.eqb : simpl never.

Lemma replaceChars_append inClass f a b :
  replaceChars inClass f (a +:+ b)
  = replaceChars inClass f a +:+ replaceChars inClass f b.
Proof.
  induction a as [|c a IH]; simpl; [reflexivity|].
  rewrite IH, append_assoc. reflexivity.
Qed.

(** Facts about single characters, checked on each of the 256. *)
Lemma escapeClass_facts c :
  (RegExp.isOneOf escapeClass c = true ->
     RegExp.isOneOf RegExp.syntaxChars c = true /\ Ascii.eqb c "*" = false) /\
  (RegExp.isOneOf escapeClass c = false ->
     Ascii.eqb c "^" = false /\ Ascii.eqb c "$" = false /\
     Ascii.eqb c "\" = false /\ Ascii.eqb c "." = false /\
     (Ascii.eqb c "*" = false ->
      RegExp.isOneOf RegExp.operatorChars c = false)).
Proof.
  destruct c as [[] [] [] [] [] [] [] []]; vm_compute;
    repeat split; intros; congruence.
Qed.

Lemma ascii_eqb_sym (a b : ascii) : Ascii.eqb a b = Ascii.eqb b a.
Proof.
  destruct (Ascii.eqb_spec a b) as [->|H].
  - now rewrite Ascii.eqb_refl.
  - symmetry. apply Ascii.eqb_neq. congruence.
Qed.

Lemma globSource_encode glob : globSource glob = "^" +:+ encode glob +:+ "$".
Proof.
  unfold globSource. do 2 f_equal.
  induction glob as [|c glob IH]; [reflexivity|].
  cbn [replaceChars encode]. rewrite replaceChars_append, IH. f_equal.
  unfold encodeChar. destruct (Ascii.eqb c "*") eqn:Hstar.
  - apply Ascii.eqb_eq in Hstar. subst c. reflexivity.
  - destruct (RegExp.isOneOf escapeClass c) eqn:Hesc; simpl;
      rewrite (ascii_eqb_sym "*" c), Hstar; reflexivity.
Qed.

Lemma startsWithStar_encode glob rest :
  startsWithStar rest = false -> startsWithStar (encode glob +:+ rest) = false.
Proof.
  intros Hrest. destruct glob as [|c glob]; [exact Hrest|].
  cbn [encode]. unfold encodeChar.
  destruct (Ascii.eqb c "*") eqn:Hstar; [reflexivity|].
  destruct (RegExp.isOneOf escapeClass c); simpl; [reflexivity|exact Hstar].
Qed.

Lemma parse_not_star a rest ts :
  startsWithStar rest = false ->
  RegExp.parse rest = Some ts ->
  match rest with
  | String q rest' =>
      if Ascii.eqb q "*"
      then cons (RegExp.TStar a) <$> RegExp.parse rest'
      else cons (RegExp.TAtom a) <$> RegExp.parse rest
  | EmptyString => cons (RegExp.TAtom a) <$> RegExp.parse rest
  end = Some (RegExp.TAtom a :: ts).
Proof.
  intros Hstar Hparse. destruct rest as [|q rest'].
  - rewrite Hparse. reflexivity.
  - simpl in Hstar. rewrite Hstar, Hparse. reflexivity.
Qed.

Lemma parse_encode glob :
  forall rest ts,
    startsWithStar rest = false ->
    RegExp.parse rest = Some ts ->
    RegExp.parse (encode glob +:+ rest) = Some (globTerms glob ++ ts).
Proof.
  induction glob as [|c glob IH]; intros rest ts Hstar Hparse;
    [exact Hparse|].
  specialize (IH rest ts Hstar Hparse).
  pose proof (startsWithStar_encode glob rest Hstar) as Hnext.
  cbn [encode]. rewrite append_assoc.
  change (globTerms (String c glob)) with (globTerm c :: globTerms glob).
  unfold encodeChar, globTerm.
  destruct (escapeClass_facts c) as [Hin Hout].
  destruct (Ascii.eqb c "*") eqn:Hc.
  - simpl. rewrite IH. reflexivity.
  - destruct (RegExp.isOneOf escapeClass c) eqn:Hesc.
    + destruct (Hin eq_refl) as [Hsyntax _].
      cbn [String.append RegExp.parse]. simpl Ascii.eqb.
      cbv iota. rewrite Hsyntax.
      apply parse_not_star; assumption.
    + destruct (Hout eq_refl) as (H1 & H2 & H3 & H4 & H5).
      cbn [String.append RegExp.parse].
      rewrite H1, H2, H3, H4, (H5 eq_refl).
      apply parse_not_star; assumption.
Qed.

(** Every glob compiles: the branch of [globToRegex] for a source that
    does not is never taken. *)
Lemma globToRegex_compiles glob :
  RegExp.parse (globSource glob)
  = Some (RegExp.TBegin :: globTerms glob ++ [RegExp.TEnd]).
Proof.
  rewrite globSource_encode.
  change (RegExp.parse ("^" +:+ encode glob +:+ "$"))
    with (cons RegExp.TBegin <$> RegExp.parse (encode glob +:+ "$")).
  rewrite (parse_encode glob "$" [RegExp.TEnd]); reflexivity.
Qed.

Lemma globToRegex_terms glob :
  globToRegex glob = RegExp.TBegin :: globTerms glob ++ [RegExp.TEnd].
Proof. unfold globToRegex. rewrite globToRegex_compiles. reflexivity. Qed.

End GlobSource.

(** Glob matching of a whole selector, with [*] standing for any sequence
    of characters that [any] admits and every other character for itself.
    With [any] constantly true this is the matching the specification
    describes. *)
Inductive globMatchesWith (any : ascii -> bool) : string -> string -> Prop :=
| glob_end : globMatchesWith any "" ""
| glob_char c pattern s :
    Ascii.eqb c "*" = false ->
    globMatchesWith any pattern s ->
    globMatchesWith any (String c pattern) (String c s)
| glob_star_empty pattern s :
    globMatchesWith any pattern s ->
    globMatchesWith any (String "*" pattern) s
| glob_star_more c pattern s :
    any c = true ->
    globMatchesWith any (String "*" pattern) s ->
    globMatchesWith any (String "*" pattern) (String c s).

Definition globMatches : string -> string -> Prop :=
  globMatchesWith (fun _ => true).

(** What [.] admits. *)
Definition dotAdmits (c : ascii) : bool := negb (RegExp.lineTerminator c).

Section GlobMatching.

Import RegExp.

Lemma matchHere_star a r atStart s :
  matchHere (TStar a :: r) atStart s =
  matchHere r atStart s
  || match s with
     | String c s' => atomMatches a c && matchHere (TStar a :: r) false s'
     | EmptyString => false
     end.
Proof. destruct s; reflexivity. Qed.

Lemma matchHere_glob glob :
  forall s atStart,
    matchHere (globTerms glob ++ [TEnd]) atStart s = true
    <-> globMatchesWith dotAdmits glob s.
Proof.
  induction glob as [|c glob IH]; intros s atStart.
  - cbn. rewrite andb_true_r. destruct s; simpl; split; intros H.
    + constructor.
    + reflexivity.
    + discriminate.
    + inversion H.
  - change (globTerms (String c glob) ++ [TEnd])
      with (globTerm c :: (globTerms glob ++ [TEnd])).
    unfold globTerm. destruct (Ascii.eqb c "*") eqn:Hc.
    + apply Ascii.eqb_eq in Hc. subst c.
      revert atStart. induction s as [|x s IHs]; intros atStart;
        rewrite matchHere_star.
      * rewrite orb_false_r, IH. split; intros H.
        -- apply glob_star_empty, H.
        -- inversion H; subst; try discriminate; assumption.
      * rewrite orb_true_iff, andb_true_iff, IH, IHs.
        change (atomMatches ADot x) with (dotAdmits x).
        split.
        -- intros [H | [Hx H]];
             [apply glob_star_empty, H | apply glob_star_more; assumption].
        -- intros H. inversion H; subst; try discriminate; tauto.
    + cbn [matchHere]. destruct s as [|x s].
      * split; [discriminate | intros H; inversion H; subst; discriminate].
      * rewrite andb_true_iff, IH. cbn [atomMatches].
        split.
        -- intros [Hx H]. apply Ascii.eqb_eq in Hx. subst x.
           apply glob_char; assumption.
        -- intros H. inversion H; subst; try discriminate.
           split; [apply Ascii.eqb_refl | assumption].
Qed.

Lemma testFrom_anchored r s : testFrom (TBegin :: r) false s = false.
Proof. induction s as [|c s IH]; simpl; [reflexivity | exact IH]. Qed.

Lemma test_globToRegex glob s :
  test (globToRegex glob) s = true <-> globMatchesWith dotAdmits glob s.
Proof.
  rewrite globToRegex_terms, <- (matchHere_glob glob s true).
  unfold test. destruct s as [|c s]; cbn [testFrom].
  - rewrite orb_false_r. reflexivity.
  - rewrite testFrom_anchored, orb_false_r. reflexivity.
Qed.

End GlobMatching.

Lemma createOmitMatcher_none selector : createOmitMatcher None selector = false.
Proof. reflexivity. Qed.

Lemma createOmitMatcher_empty selector :
  createOmitMatcher (Some []) selector = false.
Proof. reflexivity. Qed.

(** What the compiled predicate decides, for every selector. *)
Lemma createOmitMatcher_matches omit selector :
  createOmitMatcher omit selector = true
  <-> exists pattern,
        In pattern (default [] omit) /\
        globMatchesWith dotAdmits pattern selector.
Proof.
  unfold createOmitMatcher.
  destruct (default [] omit) as [|p ps] eqn:E.
  - simpl. split; [discriminate | intros (? & [] & _)].
  - rewrite <- E. clear E p ps.
    assert (Hexists : forall ps,
               existsb (fun re => RegExp.test re selector) (map globToRegex ps)
               = true
               <-> exists pattern,
                     In pattern ps /\ globMatchesWith dotAdmits pattern selector).
    { induction ps as [|p ps IH]; simpl.
      - split; [discriminate | intros (? & [] & _)].
      - rewrite orb_true_iff, IH, test_globToRegex. split.
        + intros [H | (q & Hq & H)]; [exists p | exists q]; auto.
        + intros (q & [<- | Hq] & H); [left | right; exists q]; auto. }
    destruct (map globToRegex (default [] omit)) eqn:E;
      [|rewrite <- E; apply Hexists].
    destruct (default [] omit); [|discriminate E].
    split; [discriminate | intros (? & [] & _)].
Qed.

(** On a selector without line terminators, [.] admits every character,
    and the predicate is the glob matching of the specification. *)
Definition lineFree (s : string) : Prop :=
  forall c, In c (list_ascii_of_string s) -> RegExp.lineTerminator c = false.

Lemma globMatchesWith_lineFree pattern s :
  lineFree s ->
  globMatchesWith dotAdmits pattern s <-> globMatches pattern s.
Proof.
  intros Hfree. split; intros H.
  - induction H.
    + constructor.
    + apply glob_char; [assumption|]. apply IHglobMatchesWith.
      intros x Hx. apply Hfree. right. exact Hx.
    + apply glob_star_empty. apply IHglobMatchesWith, Hfree.
    + apply glob_star_more; [reflexivity|]. apply IHglobMatchesWith.
      intros x Hx. apply Hfree. right. exact Hx.
  - unfold globMatches in H. induction H.
    + constructor.
    + apply glob_char; [assumption|]. apply IHglobMatchesWith.
      intros x Hx. apply Hfree. right. exact Hx.
    + apply glob_star_empty. apply IHglobMatchesWith, Hfree.
    + apply glob_star_more.
      * unfold dotAdmits. rewrite Hfree; [reflexivity | left; reflexivity].
      * apply IHglobMatchesWith. intros x Hx. apply Hfree. right. exact Hx.
Qed.

Lemma createOmitMatcher_lineFree omit selector :
  lineFree selector ->
  createOmitMatcher omit selector = true
  <-> exists pattern,
        In pattern (default [] omit) /\ globMatches pattern selector.
Proof.
  intros Hfree. rewrite createOmitMatcher_matches.
  split; intros (p & Hp & H); exists p; split; try assumption;
    apply (globMatchesWith_lineFree p selector Hfree); exact H.
Qed.

(** A rule whose selector key is written on two lines. *)
Definition twoLineSelector : jsval :=
  JObject [("a" +:+ nl +:+ "b", JObject [("$", JObject [("color", JStr "red")])])].

(** C5. With the pattern [a*] and the selector [a], line feed, [b], the
    glob matching of the specification holds ([*] stands for the two
    characters after [a]), and the compiled predicate answers false: the
    [.] of the regular expression does not admit the line feed.  So the
    rule is compiled although its selector matches the glob, while the
    same pattern excludes the selector [a b]. *)
Theorem createOmitMatcher_line_feed :
  globMatches "a*" ("a" +:+ nl +:+ "b") /\
  createOmitMatcher (Some ["a*"]) ("a" +:+ nl +:+ "b") = false /\
  fst (compileStyle twoLineSelector (OptionsArray ["a*"]) ∅)
  = "a" +:+ nl +:+ "b{color:red;}" +:+ nl /\
  createOmitMatcher (Some ["a*"]) "a b" = true.
Proof.
  split; [|split; [|split]]; try reflexivity.
  apply glob_char; [reflexivity|].
  apply glob_star_more; [reflexivity|].
  apply glob_star_more; [reflexivity|].
  apply glob_star_empty. constructor.
Qed.

(** ** Scenario 2 *)

Definition scenario2 : jsval :=
  JObject
    [("@media (max-width: 600px)",
      JObject [("#app", JObject [("$", JObject [("color", JStr "red")])])])].

(** C1. Compiled with the default format and no exclusions, the tree of
    scenario 2 gives the nested rule with its newline inside the at-rule
    body, the closing brace of the wrapper and one newline, from every
    state of the cache. *)
Theorem compileStyle_scenario2 (cache : gmap string string) :
  reachable cache ->
  fst (compileStyle scenario2 OptionsUndefined cache)
  = "@media (max-width: 600px){#app{color:red;}" +:+ nl +:+ "}" +:+ nl.
Proof.
  intros Hc. rewrite (proj1 (compileStyle_agrees _ _ _ Hc)).
  vm_compute. reflexivity.
Qed.

Lemma compileStyle_scenario2_witness :
  reachable ∅ /\
  fst (compileStyle scenario2 OptionsUndefined ∅)
  = "@media (max-width: 600px){#app{color:red;}" +:+ nl +:+ "}" +:+ nl.
Proof.
  split; [apply reachable_empty|].
  apply compileStyle_scenario2, reachable_empty.
Defined.

(** ** Determinism *)

(** C9. From any two states of the cache, the same tree and options
    compile to the same string; so does a second run on the cache the
    first one left; and [kebabCase] gives the same result for every key.
    The states are the reachable ones: the empty cache and what calls of
    [kebabCase] make of it. *)
Theorem compileStyle_deterministic (style : jsval)
  (options : CompileOptionsInput) (cold warm : gmap string string) :
  reachable cold -> reachable warm ->
  fst (compileStyle style options cold) = fst (compileStyle style options warm)
  /\ fst (compileStyle style options (snd (compileStyle style options cold)))
     = fst (compileStyle style options cold)
  /\ forall key, fst (kebabCase key cold) = fst (kebabCase key warm).
Proof.
  intros Hcold Hwarm.
  destruct (compileStyle_agrees style options cold Hcold) as [E1 E2].
  destruct (compileStyle_agrees style options warm Hwarm) as [E3 _].
  destruct (compileStyle_agrees style options _ E2) as [E4 _].
  split; [congruence|]. split; [congruence|].
  intros key.
  rewrite (proj1 (kebabCase_reachable key cold Hcold)).
  rewrite (proj1 (kebabCase_reachable key warm Hwarm)). reflexivity.
Qed.

Definition scenario1 : jsval :=
  JObject
    [("#app",
      JObject [("$", JObject [("color", JStr "red");
                              ("backgroundColor", JStr "black");
                              ("border", JUndefined)])])].

Lemma compileStyle_deterministic_witness :
  let warm := snd (compileStyle scenario1 OptionsUndefined ∅) in
  warm !! "backgroundColor" = Some "background-color" /\
  fst (compileStyle scenario1 OptionsUndefined ∅)
  = fst (compileStyle scenario1 OptionsUndefined warm) /\
  fst (compileStyle scenario1 OptionsUndefined ∅)
  = "#app{color:red;background-color:black;}" +:+ nl.
Proof.
  split; [vm_compute; reflexivity|]. split; [|vm_compute; reflexivity].
  apply (compileStyle_deterministic scenario1 OptionsUndefined ∅
           (snd (compileStyle scenario1 OptionsUndefined ∅))).
  - apply reachable_empty.
  - apply compileStyle_agrees, reachable_empty.
Defined.

(** ** Absent values and empty bodies *)

(** A declaration block that is absent, or whose values all are. *)
Definition allAbsent (block : jsval) : bool :=
  match block with
  | JUndefined | JNull => true
  | JObject props => forallb (fun kv => nullish (snd kv)) props
  | _ => false
  end.

(** The properties of a block whose value is not absent. *)
Definition presentProperties (props : list (string * jsval))
  : list (string * jsval) :=
  List.filter (fun kv => negb (nullish (snd kv))) props.

(** The body an at-rule node composes: its own declarations, then what
    the visits of its keys push. *)
Definition atRuleBody (style : jsval) (parentSelector : string) (depth : nat)
  (format : PlumetFormat) (isOmitted : string -> bool)
  (cache : gmap string string) : string :=
  let '(declarations, cache) := collectDeclarations (get style "$") cache in
  let bodyParts :=
    match declarations with
    | [] => []
    | _ => writeDeclarations [] declarations (depth + 1) format
    end in
  join (fst (fold_left (visit parentSelector (depth + 1) format isOmitted)
               (match style with JObject props => props | _ => [] end)
               (bodyParts, cache))).

Lemma collectDeclarations_present_from props :
  forall entries,
    fold_left
      (fun (entries : list declaration) (kv : string * jsval) =>
         let '(k, v) := kv in
         if nullish v then entries
         else entries ++ [(CacheFree.kebabCase k, toString v)])
      props entries
    = entries ++ map (fun kv => (CacheFree.kebabCase (fst kv), toString (snd kv)))
                     (presentProperties props).
Proof.
  induction props as [|[k v] props IH]; intros entries; simpl.
  - rewrite app_nil_r. reflexivity.
  - rewrite IH. unfold presentProperties. simpl.
    destruct (nullish v); simpl; [reflexivity|].
    rewrite <- app_assoc. reflexivity.
Qed.

Lemma collectDeclarations_allAbsent block cache :
  allAbsent block = true -> collectDeclarations block cache = ([], cache).
Proof.
  destruct block as [ | | b | z | s | props]; try discriminate;
    try reflexivity.
  unfold collectDeclarations. simpl. generalize (@nil declaration).
  induction props as [|[k v] props IH]; intros entries H; [reflexivity|].
  simpl in H. apply andb_true_iff in H as [Hv H].
  simpl. rewrite Hv. apply IH, H.
Qed.

(** C6. A block renders exactly its properties whose value is not absent,
    in order; a rule node whose block is absent or holds absent values
    only pushes no rule, so its output is that of the visits of its keys;
    an at-rule gives the wrapper around its composed body, which is
    nothing when that body is empty, and then nothing is pushed for it. *)
Theorem absent_values_omitted :
  (forall props cache,
     reachable cache ->
     fst (collectDeclarations (JObject props) cache)
     = map (fun kv => (kebabLoop (fst kv) "", toString (snd kv)))
           (presentProperties props)) /\
  (forall selector props depth fmt isOmitted out cache,
     allAbsent (lookup "$" props) = true ->
     compileRuleNode selector (JObject props) depth fmt isOmitted out cache
     = fold_left (visit selector depth fmt isOmitted) props (out, cache)) /\
  (forall name props parent depth fmt isOmitted cache,
     fst (compileAtRule name (JObject props) parent depth fmt isOmitted cache)
     = wrapAtRule name
         (atRuleBody (JObject props) parent depth fmt isOmitted cache)
         depth fmt /\
     (atRuleBody (JObject props) parent depth fmt isOmitted cache = "" ->
      fst (compileAtRule name (JObject props) parent depth fmt isOmitted cache)
      = "")) /\
  (forall selector depth fmt isOmitted out cache key child,
     isAtRuleKey key = true ->
     fst (compileAtRule key child selector depth fmt isOmitted cache) = "" ->
     fst (visit selector depth fmt isOmitted (out, cache) (key, child)) = out).
Proof.
  split; [|split; [|split]].
  - intros props cache Hc.
    rewrite (proj1 (collectDeclarations_reachable _ _ Hc)).
    unfold CacheFree.collectDeclarations. simpl.
    rewrite collectDeclarations_present_from. reflexivity.
  - intros selector props depth fmt isOmitted out cache H.
    rewrite compileRuleNode_cache_unfold.
    rewrite (collectDeclarations_allAbsent _ cache H). reflexivity.
  - intros name props parent depth fmt isOmitted cache.
    assert (E : fst (compileAtRule name (JObject props) parent depth fmt
                       isOmitted cache)
                = wrapAtRule name
                    (atRuleBody (JObject props) parent depth fmt isOmitted cache)
                    depth fmt).
    { rewrite compileAtRule_cache_unfold. unfold atRuleBody. cbn [get].
      destruct (collectDeclarations (lookup "$" props) cache) as [decls c1].
      destruct (fold_left _ props _) as [bodyParts c2]. reflexivity. }
    split; [exact E|]. intros Hbody. rewrite E, Hbody. reflexivity.
  - intros selector depth fmt isOmitted out cache key child Hat Hempty.
    unfold visit. destruct (skippedKey key); [reflexivity|].
    destruct (notAnObject child); [reflexivity|]. rewrite Hat.
    destruct (compileAtRule key child selector depth fmt isOmitted cache)
      as [body c1].
    simpl in Hempty. subst body. reflexivity.
Qed.

(** The tree of the test "skips empty rules and empty at-rules". *)
Definition emptyRules : jsval :=
  JObject
    [("#app",
      JObject
        [("$", JObject [("color", JUndefined)]);
         (".child", JObject [("$", JObject [("color", JUndefined)])]);
         ("@media (max-width: 800px)",
          JObject [(".nested", JObject [("$", JObject [("padding", JUndefined)])])])])].

Lemma absent_values_omitted_witness :
  reachable ∅ /\
  fst (collectDeclarations
         (JObject [("color", JStr "red"); ("backgroundColor", JStr "black");
                   ("border", JUndefined)]) ∅)
  = [("color", "red"); ("background-color", "black")] /\
  fst (compileStyle emptyRules OptionsUndefined ∅) = "".
Proof.
  split; [apply reachable_empty|]. split; [|reflexivity].
  rewrite (proj1 absent_values_omitted _ ∅ reachable_empty). reflexivity.
Defined.

(** ** Nesting depth *)

Lemma lookup_block_snoc props key child :
  skippedKey key = false ->
  lookup "$" (props ++ [(key, child)]) = lookup "$" props.
Proof.
  intros Hkey. apply orb_false_iff in Hkey as [_ Hkey].
  induction props as [|[k v] props IH]; simpl.
  - rewrite Hkey. reflexivity.
  - destruct (String.eqb k "$"); [reflexivity | exact IH].
Qed.

(** The tree of the test "supports pretty format". *)
Definition prettyNested : jsval :=
  JObject
    [("#app",
      JObject [("$", JObject [("color", JStr "red")]);
               ("a", JObject [("$", JObject [("color", JStr "blue")])])])].

Definition prettyOptions : CompileOptionsInput :=
  OptionsObject {| omit := None; format := Some FormatPretty |}.

(** C7, as stated, fails: the rule node [#app] of [prettyNested] does not
    compile its child [a] at depth 1 after its own rule, and the lines of
    [#app a] in the pretty output start in the same column as those of
    [#app]. *)
Lemma nested_rule_not_deeper :
  let child := JObject [("$", JObject [("color", JStr "blue")])] in
  let parent := JObject [("$", JObject [("color", JStr "red")]); ("a", child)] in
  fst (compileRuleNode "#app" parent 0 FormatPretty (fun _ => false) [] ∅)
  <> fst (compileRuleNode "#app a" child 1 FormatPretty (fun _ => false)
            (writeRule [] "#app" [("color", "red")] 0 FormatPretty) ∅)
  /\ fst (compileStyle prettyNested prettyOptions ∅)
     = "#app {" +:+ nl +:+ "  color: red;" +:+ nl +:+ "}" +:+ nl
       +:+ "#app a {" +:+ nl +:+ "  color: blue;" +:+ nl +:+ "}" +:+ nl.
Proof.
  split; [|vm_compute; reflexivity].
  vm_compute. intros H. discriminate H.
Qed.

(** C7, amended. An ordinary nested rule child is compiled at the depth of
    its parent: visiting it as the last key of a rule node is compiling it,
    at its resolved selector and the same depth, onto what the node pushed
    before. *)
Theorem nested_rule_same_depth (selector : string)
  (props : list (string * jsval)) (key : string) (child : jsval)
  (depth : nat) (fmt : PlumetFormat) (isOmitted : string -> bool)
  (out : list string) (cache : gmap string string) :
  skippedKey key = false ->
  notAnObject child = false ->
  isAtRuleKey key = false ->
  isOmitted (resolveSelector selector key) = false ->
  compileRuleNode selector (JObject (props ++ [(key, child)])) depth fmt
    isOmitted out cache
  = let '(out', cache') :=
      compileRuleNode selector (JObject props) depth fmt isOmitted out cache in
    compileRuleNode (resolveSelector selector key) child depth fmt isOmitted
      out' cache'.
Proof.
  intros Hkey Hobj Hat Hom.
  rewrite !compileRuleNode_cache_unfold, lookup_block_snoc by exact Hkey.
  destruct (collectDeclarations (lookup "$" props) cache) as [decls c1].
  rewrite fold_left_app. cbn [fold_left].
  destruct (fold_left _ props _) as [out' cache'].
  unfold visit. rewrite Hkey, Hobj, Hat, Hom. reflexivity.
Qed.

Lemma nested_rule_same_depth_witness :
  let child := JObject [("$", JObject [("color", JStr "blue")])] in
  let block := ("$", JObject [("color", JStr "red")]) in
  compileRuleNode "#app" (JObject ([block] ++ [("a", child)])) 0 FormatPretty
    (fun _ => false) [] ∅
  = let '(out', cache') :=
      compileRuleNode "#app" (JObject [block]) 0 FormatPretty
        (fun _ => false) [] ∅ in
    compileRuleNode "#app a" child 0 FormatPretty (fun _ => false) out' cache'.
Proof.
  intros child block.
  apply (nested_rule_same_depth "#app" [block] "a" child 0 FormatPretty
           (fun _ => false) [] ∅); reflexivity.
Defined.

(** ** The walker only appends *)

Lemma fold_left_push {B : Type} (F : B -> list string) (l : list B)
  (out : list string) :
  fold_left (fun out x => out ++ F x) l out = out ++ flat_map F l.
Proof.
  revert out. induction l as [|x l IH]; intros out; simpl.
  - rewrite app_nil_r. reflexivity.
  - rewrite IH, <- app_assoc. reflexivity.
Qed.

Lemma fold_left_push_pair (F : string -> string -> list string)
  (l : list declaration) (out : list string) :
  fold_left (fun out '(prop, value) => out ++ F prop value) l out
  = out ++ flat_map (fun '(prop, value) => F prop value) l.
Proof.
  rewrite <- fold_left_push. apply fold_left_ext_in.
  intros a [prop value] _. reflexivity.
Qed.

Lemma writeDeclarations_app out declarations depth fmt :
  writeDeclarations out declarations depth fmt
  = out ++ writeDeclarations [] declarations depth fmt.
Proof.
  unfold writeDeclarations. destruct (isPretty fmt);
    rewrite !fold_left_push_pair; reflexivity.
Qed.

Lemma writeRule_app out selector declarations depth fmt :
  writeRule out selector declarations depth fmt
  = out ++ writeRule [] selector declarations depth fmt.
Proof.
  unfold writeRule. destruct (isPretty fmt).
  - rewrite !fold_left_push_pair, <- !app_assoc. reflexivity.
  - rewrite !fold_left_push_pair. destruct (isDefault fmt);
      rewrite <- !app_assoc; reflexivity.
Qed.

Lemma join_app a b : join (a ++ b) = join a +:+ join b.
Proof.
  induction a as [|x a IH]; simpl; [reflexivity|].
  rewrite IH, append_assoc. reflexivity.
Qed.

Lemma fold_left_appends {B : Type} (g : list string -> B -> list string)
  (l : list B) :
  Forall (fun x => forall a, g a x = a ++ g [] x) l ->
  forall a, fold_left g l a = a ++ fold_left g l [].
Proof.
  induction 1 as [|x l Hx _ IH]; intros a; simpl.
  - rewrite app_nil_r. reflexivity.
  - rewrite IH, (IH (g [] x)), (Hx a), <- app_assoc. reflexivity.
Qed.

Definition appends (style : jsval) : Prop :=
  forall sel d fmt om out,
    CacheFree.compileRuleNode sel style d fmt om out
    = out ++ CacheFree.compileRuleNode sel style d fmt om [].

Lemma visit_appends key child :
  appends child ->
  forall sel d fmt om a,
    CacheFreeVisit.visit sel d fmt om a (key, child)
    = a ++ CacheFreeVisit.visit sel d fmt om [] (key, child).
Proof.
  intros Hchild sel d fmt om a. unfold CacheFreeVisit.visit.
  destruct (skippedKey key); [now rewrite app_nil_r|].
  destruct (notAnObject child); [now rewrite app_nil_r|].
  destruct (isAtRuleKey key).
  - destruct (nonEmpty _); [reflexivity | now rewrite app_nil_r].
  - destruct (om _); [now rewrite app_nil_r | apply Hchild].
Qed.

Lemma compileRuleNode_appends style : appends style.
Proof.
  induction style as [ | | b | z | s | props IH] using jsval_nested_ind.
  1-5: intros sel d fmt om out; cbn; now rewrite app_nil_r.
  intros sel d fmt om out. rewrite !compileRuleNode_unfold.
  assert (Hvisit : Forall (fun kv => forall a,
                      CacheFreeVisit.visit sel d fmt om a kv
                      = a ++ CacheFreeVisit.visit sel d fmt om [] kv) props).
  { eapply Forall_impl; [exact IH|].
    intros [key child] Hchild a. apply visit_appends, Hchild. }
  rewrite (fold_left_appends _ props Hvisit).
  rewrite (fold_left_appends _ props Hvisit
             (CacheFreeVisit.ownRule [] sel (JObject props) d fmt)).
  rewrite app_assoc. f_equal.
  unfold CacheFreeVisit.ownRule. cbn [get].
  destruct (CacheFree.collectDeclarations (lookup "$" props));
    [now rewrite app_nil_r | apply writeRule_app].
Qed.

Lemma visits_append sel d fmt om props a :
  fold_left (CacheFreeVisit.visit sel d fmt om) props a
  = a ++ fold_left (CacheFreeVisit.visit sel d fmt om) props [].
Proof.
  apply fold_left_appends, Forall_forall.
  intros [key child] _ a'. apply visit_appends, compileRuleNode_appends.
Qed.

(** ** At-rules keep the selector scope *)

(** The properties of a node other than its declaration block. *)
Definition withoutBlock (props : list (string * jsval))
  : list (string * jsval) :=
  List.filter (fun kv => negb (String.eqb (fst kv) "$")) props.

Lemma lookup_withoutBlock props : lookup "$" (withoutBlock props) = JUndefined.
Proof.
  induction props as [|[k v] props IH]; [reflexivity|].
  unfold withoutBlock in *. simpl.
  destruct (String.eqb k "$") eqn:E; simpl; [exact IH|].
  rewrite E. exact IH.
Qed.

Lemma visits_withoutBlock sel d fmt om props :
  forall a,
    fold_left (CacheFreeVisit.visit sel d fmt om) (withoutBlock props) a
    = fold_left (CacheFreeVisit.visit sel d fmt om) props a.
Proof.
  induction props as [|[k v] props IH]; intros a; [reflexivity|].
  unfold withoutBlock in *. simpl.
  destruct (String.eqb k "$") eqn:E; simpl.
  - rewrite IH. unfold skippedKey. rewrite E, orb_true_r. reflexivity.
  - apply IH.
Qed.

Lemma atRule_body_as_rule_children props parent depth fmt om :
  forall name,
    CacheFree.compileAtRule name (JObject props) parent depth fmt om
    = wrapAtRule name
        (join (writeDeclarations []
                 (CacheFree.collectDeclarations (lookup "$" props))
                 (depth + 1) fmt)
         +:+ join (CacheFree.compileRuleNode parent
                     (JObject (withoutBlock props)) (depth + 1) fmt om []))
        depth fmt.
Proof.
  intros name. rewrite compileAtRule_unfold, compileRuleNode_unfold.
  f_equal. rewrite visits_append, join_app. f_equal.
  - unfold CacheFreeVisit.ownDeclarations. cbn [get].
    destruct (CacheFree.collectDeclarations (lookup "$" props)) as [|x l];
      [destruct (isPretty fmt) eqn:E; unfold writeDeclarations; rewrite E|];
      reflexivity.
  - unfold CacheFreeVisit.ownRule. cbn [get].
    rewrite lookup_withoutBlock, visits_withoutBlock. reflexivity.
Qed.

(** The text of the at-rule node [JObject props] met under the key [name]
    where [selector] is current: the wrapper named by the key around the
    declarations of the node, written bare, followed by what the other
    keys of the node compile to as the keys of a rule node at [selector],
    one level deeper. *)
Definition atRuleText (name : string) (props : list (string * jsval))
  (selector : string) (depth : nat) (fmt : PlumetFormat)
  (isOmitted : string -> bool) (cache : gmap string string) : string :=
  wrapAtRule name
    (join (writeDeclarations []
             (fst (collectDeclarations (lookup "$" props) cache))
             (depth + 1) fmt)
     +:+ join (fst (compileRuleNode selector (JObject (withoutBlock props))
                      (depth + 1) fmt isOmitted [] cache)))
    depth fmt.

(** The tree with one key on each level: [leaf] below the keys of [path],
    the outermost first. *)
Definition nest (path : list string) (leaf : jsval) : jsval :=
  fold_right (fun key child => JObject [(key, child)]) leaf path.

Definition atRuleKeys (path : list string) : list string :=
  List.filter isAtRuleKey path.

Definition selectorKeys (path : list string) : list string :=
  List.filter (fun key => negb (isAtRuleKey key)) path.

(** The selector in force below the keys of [path]: its selector keys
    resolved in turn from the empty selector, its at-rule keys left out. *)
Definition scopeOf (path : list string) : string :=
  fold_left resolveSelector (selectorKeys path) "".

(** [body] inside the wrappers of [names], the outermost first and at
    [depth]. *)
Fixpoint wrapAll (names : list string) (body : string) (depth : nat)
  (fmt : PlumetFormat) : string :=
  match names with
  | [] => body
  | name :: rest => wrapAtRule name (wrapAll rest body (depth + 1) fmt) depth fmt
  end.

(** What the declarations of a node under [key] are rendered to where
    [scope] is current, [inside] at-rules deep: a rule under the resolved
    selector, or, under an at-rule key, the bare declarations in the
    wrapper of the key. *)
Definition blockText (key : string) (declarations : list declaration)
  (scope : string) (inside : nat) (fmt : PlumetFormat) : string :=
  if isAtRuleKey key
  then wrapAtRule key
         (join (writeDeclarations [] declarations (inside + 1) fmt)) inside fmt
  else join (writeRule [] (resolveSelector scope key) declarations inside fmt).

Lemma isAtRuleKey_unskipped key : isAtRuleKey key = true -> skippedKey key = false.
Proof.
  intros Hat. unfold skippedKey. destruct key as [|c rest]; [discriminate|].
  cbn [nonEmpty negb orb]. apply String.eqb_neq. intros E.
  injection E as -> ->. discriminate Hat.
Qed.

Lemma join_pushed out body :
  join (if nonEmpty body then out ++ [body] else out) = join out +:+ body.
Proof.
  destruct body as [|c body]; cbn [nonEmpty].
  - rewrite append_empty_r. reflexivity.
  - rewrite join_app. cbn [join fold_right]. rewrite append_empty_r.
    reflexivity.
Qed.

Lemma writeDeclarations_nil depth fmt : writeDeclarations [] [] depth fmt = [].
Proof. unfold writeDeclarations. destruct (isPretty fmt); reflexivity. Qed.

Lemma atRuleText_agrees name props selector depth fmt isOmitted cache :
  reachable cache ->
  atRuleText name props selector depth fmt isOmitted cache
  = CacheFree.compileAtRule name (JObject props) selector depth fmt isOmitted.
Proof.
  intros Hc. unfold atRuleText.
  rewrite (proj1 (proj1 (walker_agrees _) _ _ _ _ _ _ Hc)).
  rewrite (proj1 (collectDeclarations_reachable _ _ Hc)).
  symmetry. apply atRule_body_as_rule_children.
Qed.

Lemma compileRuleNode_atRule_snoc selector props key childProps depth fmt
  isOmitted out :
  isAtRuleKey key = true ->
  CacheFree.compileRuleNode selector
    (JObject (props ++ [(key, JObject childProps)])) depth fmt isOmitted out
  = let before :=
      CacheFree.compileRuleNode selector (JObject props) depth fmt isOmitted
        out in
    let text :=
      CacheFree.compileAtRule key (JObject childProps) selector depth fmt
        isOmitted in
    if nonEmpty text then before ++ [text] else before.
Proof.
  intros Hat. pose proof (isAtRuleKey_unskipped key Hat) as Hkey.
  rewrite !compileRuleNode_unfold, fold_left_app.
  unfold CacheFreeVisit.ownRule. cbn [get].
  rewrite lookup_block_snoc by exact Hkey.
  set (before := fold_left _ props _). cbn [fold_left].
  unfold CacheFreeVisit.visit. rewrite Hkey, Hat. reflexivity.
Qed.

Lemma compileRoot_atRule_snoc props key childProps fmt isOmitted :
  isAtRuleKey key = true ->
  CacheFree.compileRoot (JObject (props ++ [(key, JObject childProps)])) fmt
    isOmitted
  = CacheFree.compileRoot (JObject props) fmt isOmitted
    +:+ CacheFree.compileAtRule key (JObject childProps) "" 0 fmt isOmitted.
Proof.
  intros Hat. pose proof (isAtRuleKey_unskipped key Hat) as Hkey.
  rewrite !compileRoot_unfold, fold_left_app.
  set (before := fold_left _ props _). cbn [fold_left].
  unfold CacheFreeVisit.visit. rewrite Hkey, Hat.
  cbn [notAnObject falsy typeofObject negb orb]. apply join_pushed.
Qed.

Section OneKeyPerLevel.

Variables (key : string) (block : jsval) (fmt : PlumetFormat).
Variable isOmitted : string -> bool.
Hypothesis key_visited : skippedKey key = false.
Hypothesis nothing_excluded : forall selector, isOmitted selector = false.
Hypothesis block_not_empty : CacheFree.collectDeclarations block <> [].

Lemma lookup_block_single k (child : jsval) :
  skippedKey k = false -> lookup "$" [(k, child)] = JUndefined.
Proof.
  intros Hk. apply orb_false_iff in Hk as [_ Hk]. cbn [lookup].
  rewrite Hk. reflexivity.
Qed.

Lemma withoutBlock_single k (child : jsval) :
  skippedKey k = false -> withoutBlock [(k, child)] = [(k, child)].
Proof.
  intros Hk. apply orb_false_iff in Hk as [_ Hk].
  unfold withoutBlock. cbn [List.filter fst]. rewrite Hk. reflexivity.
Qed.

Lemma nest_last_walk selector depth :
  join (CacheFree.compileRuleNode selector
          (JObject [(key, JObject [("$", block)])]) depth fmt isOmitted [])
  = blockText key (CacheFree.collectDeclarations block) selector depth fmt.
Proof.
  rewrite compileRuleNode_unfold. unfold CacheFreeVisit.ownRule. cbn [get].
  rewrite (lookup_block_single key _ key_visited).
  change (CacheFree.collectDeclarations JUndefined) with (@nil declaration).
  cbn [fold_left]. unfold CacheFreeVisit.visit at 1. rewrite key_visited.
  cbn [notAnObject falsy typeofObject negb orb].
  unfold blockText. destruct (isAtRuleKey key).
  - rewrite (join_pushed [] _). cbn [join fold_right].
    rewrite compileAtRule_unfold. cbn [fold_left].
    unfold CacheFreeVisit.visit, CacheFreeVisit.ownDeclarations.
    change (skippedKey "$") with true. cbn [get lookup].
    change (String.eqb "$" "$") with true. cbv iota.
    destruct (CacheFree.collectDeclarations block) as [|x l] eqn:E;
      [now destruct block_not_empty|].
    reflexivity.
  - rewrite nothing_excluded, compileRuleNode_unfold.
    unfold CacheFreeVisit.ownRule. cbn [get lookup fold_left].
    change (String.eqb "$" "$") with true. cbv iota.
    unfold CacheFreeVisit.visit. change (skippedKey "$") with true.
    cbv iota.
    destruct (CacheFree.collectDeclarations block) as [|x l] eqn:E;
      [now destruct block_not_empty|].
    reflexivity.
Qed.

Lemma nest_walk path :
  Forall (fun k => skippedKey k = false) path ->
  forall selector depth,
    join (CacheFree.compileRuleNode selector
            (nest (path ++ [key]) (JObject [("$", block)])) depth fmt
            isOmitted [])
    = wrapAll (atRuleKeys path)
        (blockText key (CacheFree.collectDeclarations block)
           (fold_left resolveSelector (selectorKeys path) selector)
           (depth + length (atRuleKeys path)) fmt)
        depth fmt.
Proof.
  induction 1 as [|k path Hk Hpath IH]; intros selector depth.
  - cbn [app nest fold_right atRuleKeys selectorKeys List.filter fold_left
         length wrapAll].
    rewrite Nat.add_0_r. apply nest_last_walk.
  - change (nest ((k :: path) ++ [key]) (JObject [("$", block)]))
      with (JObject [(k, nest (path ++ [key]) (JObject [("$", block)]))]).
    assert (Hchild : exists k' child,
               nest (path ++ [key]) (JObject [("$", block)])
               = JObject [(k', child)] /\ skippedKey k' = false).
    { destruct path as [|k' path'].
      - eexists _, _. split; [reflexivity | exact key_visited].
      - eexists _, _. split; [reflexivity|].
        exact (Forall_inv Hpath). }
    destruct Hchild as (k' & child & Hnest & Hk').
    rewrite compileRuleNode_unfold. unfold CacheFreeVisit.ownRule. cbn [get].
    rewrite (lookup_block_single k _ Hk).
    change (CacheFree.collectDeclarations JUndefined) with (@nil declaration).
    cbn [fold_left]. unfold CacheFreeVisit.visit at 1. rewrite Hk.
    unfold atRuleKeys, selectorKeys in *. cbn [List.filter].
    rewrite Hnest at 1. cbn [notAnObject falsy typeofObject negb orb].
    destruct (isAtRuleKey k); cbn [negb length wrapAll fold_left].
    + rewrite (join_pushed [] _). cbn [join fold_right].
      rewrite Hnest, atRule_body_as_rule_children.
      rewrite (lookup_block_single k' _ Hk'), (withoutBlock_single k' _ Hk').
      change (CacheFree.collectDeclarations JUndefined) with (@nil declaration).
      rewrite writeDeclarations_nil. cbn [join fold_right String.append].
      rewrite <- Hnest, IH. do 3 f_equal. lia.
    + rewrite nothing_excluded. apply IH.
Qed.

End OneKeyPerLevel.

Lemma compileRoot_as_rule_node props fmt isOmitted :
  CacheFree.compileRoot (JObject props) fmt isOmitted
  = join (CacheFree.compileRuleNode "" (JObject (withoutBlock props)) 0 fmt
            isOmitted []).
Proof.
  rewrite compileRoot_unfold, compileRuleNode_unfold.
  unfold CacheFreeVisit.ownRule. cbn [get].
  rewrite lookup_withoutBlock, visits_withoutBlock. reflexivity.
Qed.

Lemma compileRoot_nest path key block fmt :
  Forall (fun k => skippedKey k = false) (path ++ [key]) ->
  CacheFree.collectDeclarations block <> [] ->
  CacheFree.compileRoot (nest (path ++ [key]) (JObject [("$", block)])) fmt
    (fun _ => false)
  = wrapAll (atRuleKeys path)
      (blockText key (CacheFree.collectDeclarations block) (scopeOf path)
         (length (atRuleKeys path)) fmt)
      0 fmt.
Proof.
  intros Hpath Hblock. apply Forall_app in Hpath as [Hpath Hkey].
  pose proof (Forall_inv Hkey) as Hk.
  pose proof (nest_walk key block fmt (fun _ => false) Hk
                (fun _ => eq_refl) Hblock path Hpath "" 0) as Hwalk.
  cbn [Nat.add] in Hwalk. fold (scopeOf path) in Hwalk. rewrite <- Hwalk.
  destruct path as [|k path'].
  - cbn [app nest fold_right]. rewrite compileRoot_as_rule_node.
    rewrite (withoutBlock_single key _ Hk). reflexivity.
  - change (nest ((k :: path') ++ [key]) (JObject [("$", block)]))
      with (JObject [(k, nest (path' ++ [key]) (JObject [("$", block)]))]).
    rewrite compileRoot_as_rule_node.
    rewrite (withoutBlock_single k _ (Forall_inv Hpath)). reflexivity.
Qed.

(** C2. The key of an at-rule occurs in its wrapper only, wherever the
    walker meets it.  An at-rule node compiles to the wrapper of its key
    around its own declarations, written bare, followed by what its other
    keys compile to as the keys of a rule node at the selector current
    outside the at-rule ([atRuleText]); this is the text [compileAtRule]
    returns at the selector it is handed, the text a rule node pushes for
    an at-rule among its keys at the selector of the rule node itself, and
    the text [compileStyle] emits for a top-level at-rule at the empty
    selector.  Hence through any nesting: below a chain of keys, the
    declarations of a node are rendered under the selector resolved from
    the selector keys of the chain alone, inside the wrappers of its
    at-rule keys, and as bare declarations with no selector when the last
    key is an at-rule. *)
Theorem at_rule_keeps_selector (cache : gmap string string) :
  reachable cache ->
  (forall name props parentSelector depth fmt isOmitted,
     fst (compileAtRule name (JObject props) parentSelector depth fmt
            isOmitted cache)
     = atRuleText name props parentSelector depth fmt isOmitted cache) /\
  (forall selector props key childProps depth fmt isOmitted out,
     isAtRuleKey key = true ->
     fst (compileRuleNode selector
            (JObject (props ++ [(key, JObject childProps)])) depth fmt
            isOmitted out cache)
     = let before :=
         fst (compileRuleNode selector (JObject props) depth fmt isOmitted
                out cache) in
       let text :=
         atRuleText key childProps selector depth fmt isOmitted cache in
       if nonEmpty text then before ++ [text] else before) /\
  (forall props key childProps options,
     isAtRuleKey key = true ->
     fst (compileStyle (JObject (props ++ [(key, JObject childProps)]))
            options cache)
     = fst (compileStyle (JObject props) options cache)
       +:+ atRuleText key childProps "" 0
             (default FormatDefault (format (normalizeOptions options)))
             (createOmitMatcher (omit (normalizeOptions options))) cache) /\
  (forall path key block fmt,
     Forall (fun k => skippedKey k = false) (path ++ [key]) ->
     fst (collectDeclarations block cache) <> [] ->
     fst (compileStyle (nest (path ++ [key]) (JObject [("$", block)]))
            (OptionsObject {| omit := None; format := Some fmt |}) cache)
     = wrapAll (atRuleKeys path)
         (blockText key (fst (collectDeclarations block cache))
            (scopeOf path) (length (atRuleKeys path)) fmt)
         0 fmt).
Proof.
  intros Hc. repeat split.
  - intros name props parentSelector depth fmt isOmitted.
    rewrite (atRuleText_agrees _ _ _ _ _ _ _ Hc).
    apply (proj2 (walker_agrees _)), Hc.
  - intros selector props key childProps depth fmt isOmitted out Hat.
    cbv zeta. rewrite (atRuleText_agrees _ _ _ _ _ _ _ Hc).
    rewrite !(proj1 (proj1 (walker_agrees _) _ _ _ _ _ _ Hc)).
    apply compileRuleNode_atRule_snoc, Hat.
  - intros props key childProps options Hat.
    rewrite (atRuleText_agrees _ _ _ _ _ _ _ Hc).
    rewrite !(proj1 (compileStyle_agrees _ _ _ Hc)).
    apply compileRoot_atRule_snoc, Hat.
  - intros path key block fmt Hpath Hblock.
    rewrite (proj1 (compileStyle_agrees _ _ _ Hc)).
    rewrite (proj1 (collectDeclarations_reachable _ _ Hc)) in *.
    apply compileRoot_nest; assumption.
Qed.

(** An at-rule inside an at-rule inside a rule, each with a rule below. *)
Definition nestedAtRules : jsval :=
  JObject
    [("$", JObject [("color", JStr "red")]);
     ("a", JObject [("$", JObject [("color", JStr "blue")])]);
     ("@supports (display: grid)",
      JObject [("&:hover", JObject [("$", JObject [("color", JStr "green")])])])].

Lemma at_rule_keeps_selector_witness :
  let red := JObject [("color", JStr "red")] in
  let minify := OptionsObject {| omit := None; format := Some FormatMinify |} in
  reachable ∅ /\
  fst (compileAtRule "@media print" nestedAtRules ".btn" 0 FormatMinify
         (fun _ => false) ∅)
  = "@media print{color:red;.btn a{color:blue;}"
    +:+ "@supports (display: grid){.btn:hover{color:green;}}}" /\
  fst (compileRuleNode "#app"
         (JObject ([] ++ [("@media x", JObject [("a", JObject [("$", red)])])]))
         0 FormatMinify (fun _ => false) [] ∅)
  = ["@media x{#app a{color:red;}}"] /\
  fst (compileStyle
         (JObject ([] ++ [("@media x", JObject [("a", JObject [("$", red)])])]))
         minify ∅)
  = "@media x{a{color:red;}}" /\
  fst (compileStyle (nest (["#app"; "@media x"; "@supports y"] ++ ["a"])
                       (JObject [("$", red)])) minify ∅)
  = "@media x{@supports y{#app a{color:red;}}}" /\
  fst (compileStyle (nest (["#app"; "a"] ++ ["@media x"])
                       (JObject [("$", red)])) minify ∅)
  = "@media x{color:red;}".
Proof.
  intros red minify. subst red minify.
  destruct (at_rule_keeps_selector ∅ reachable_empty)
    as (Hnode & Hinline & Hroot & Hchain).
  split; [apply reachable_empty|]. unfold nestedAtRules.
  split; [|split; [|split; [|split]]].
  - rewrite Hnode. vm_compute. reflexivity.
  - rewrite Hinline by reflexivity. vm_compute. reflexivity.
  - rewrite Hroot by reflexivity. vm_compute. reflexivity.
  - rewrite Hchain; [vm_compute; reflexivity | repeat constructor |].
    vm_compute. discriminate.
  - rewrite Hchain; [vm_compute; reflexivity | repeat constructor |].
    vm_compute. discriminate.
Defined.

(** ** Exclusion *)

(** The tree without its excluded nodes: every child under a selector
    key whose resolved selector [isOmitted] matches is removed with its
    whole subtree; the children under an at-rule key stay, pruned at the
    selector current outside; everything else is kept as it is. *)
Fixpoint prune (isOmitted : string -> bool) (selector : string)
  (style : jsval) {struct style} : jsval :=
  match style with
  | JObject props =>
      JObject
        (flat_map
           (fun kv : string * jsval =>
              let '(key, child) := kv in
              if skippedKey key then [kv]
              else if notAnObject child then [kv]
              else if isAtRuleKey key
                   then [(key, prune isOmitted selector child)]
                   else
                     let next := resolveSelector selector key in
                     if isOmitted next then []
                     else [(key, prune isOmitted next child)])
           props)
  | _ => style
  end.

Definition pruneEntry (isOmitted : string -> bool) (selector : string)
  (kv : string * jsval) : list (string * jsval) :=
  let '(key, child) := kv in
  if skippedKey key then [kv]
  else if notAnObject child then [kv]
  else if isAtRuleKey key then [(key, prune isOmitted selector child)]
  else
    let next := resolveSelector selector key in
    if isOmitted next then [] else [(key, prune isOmitted next child)].

Lemma prune_unfold isOmitted selector props :
  prune isOmitted selector (JObject props)
  = JObject (flat_map (pruneEntry isOmitted selector) props).
Proof. reflexivity. Qed.

Lemma notAnObject_prune isOmitted selector style :
  notAnObject (prune isOmitted selector style) = notAnObject style.
Proof. destruct style; reflexivity. Qed.

Lemma falsy_prune isOmitted selector style :
  falsy (prune isOmitted selector style) = falsy style.
Proof. destruct style; reflexivity. Qed.

Lemma lookup_block_prune isOmitted selector props :
  lookup "$" (flat_map (pruneEntry isOmitted selector) props)
  = lookup "$" props.
Proof.
  induction props as [|[key child] props IH]; [reflexivity|].
  cbn [flat_map lookup]. unfold pruneEntry at 1. unfold skippedKey.
  destruct (String.eqb key "$") eqn:E.
  - rewrite orb_true_r. simpl. rewrite E. reflexivity.
  - destruct (negb (nonEmpty key) || false); [simpl; rewrite E; exact IH|].
    destruct (notAnObject child); [simpl; rewrite E; exact IH|].
    destruct (isAtRuleKey key); [simpl; rewrite E; exact IH|].
    cbv zeta. destruct (isOmitted _); simpl; [|rewrite E]; exact IH.
Qed.

Lemma fold_left_flat_map {A B C : Type} (g : A -> C -> A) (F : B -> list C)
  (l : list B) :
  forall a,
    fold_left g (flat_map F l) a
    = fold_left (fun a x => fold_left g (F x) a) l a.
Proof.
  induction l as [|x l IH]; intros a; simpl; [reflexivity|].
  rewrite fold_left_app. apply IH.
Qed.

Lemma fold_left_ext_Forall {A B : Type} (P : B -> Prop) (f g : A -> B -> A)
  (l : list B) :
  Forall P l -> (forall x, P x -> forall a, f a x = g a x) ->
  forall a, fold_left f l a = fold_left g l a.
Proof.
  intros Hl Hfg. induction Hl as [|x l Hx _ IH]; intros a; simpl;
    [reflexivity|].
  rewrite (Hfg x Hx). apply IH.
Qed.

Section Pruning.

(** [isOmitted] is the matcher the tree is pruned with, [weaker] any
    matcher that excludes no more than it does. *)
Variables isOmitted weaker : string -> bool.
Hypothesis weaker_excludes_less :
  forall selector, weaker selector = true -> isOmitted selector = true.

Definition pruned (style : jsval) : Prop :=
  (forall sel d fmt out,
     CacheFree.compileRuleNode sel (prune isOmitted sel style) d fmt weaker out
     = CacheFree.compileRuleNode sel style d fmt isOmitted out) /\
  (forall name parent d fmt,
     CacheFree.compileAtRule name (prune isOmitted parent style) parent d fmt
       weaker
     = CacheFree.compileAtRule name style parent d fmt isOmitted).

Lemma visit_pruned key child :
  pruned child ->
  forall sel d fmt a,
    fold_left (CacheFreeVisit.visit sel d fmt weaker)
      (pruneEntry isOmitted sel (key, child)) a
    = CacheFreeVisit.visit sel d fmt isOmitted a (key, child).
Proof.
  intros [Hrule Hat] sel d fmt a.
  unfold pruneEntry, CacheFreeVisit.visit.
  destruct (skippedKey key) eqn:Hskip; [simpl; now rewrite Hskip|].
  destruct (notAnObject child) eqn:Hobj; [simpl; now rewrite Hskip, Hobj|].
  destruct (isAtRuleKey key) eqn:Hkey.
  - simpl. rewrite Hskip, notAnObject_prune, Hobj, Hkey, Hat. reflexivity.
  - cbv zeta. destruct (isOmitted (resolveSelector sel key)) eqn:Hom;
      [reflexivity|].
    simpl. rewrite Hskip, notAnObject_prune, Hobj, Hkey.
    destruct (weaker (resolveSelector sel key)) eqn:Hweak.
    + apply weaker_excludes_less in Hweak. congruence.
    + apply Hrule.
Qed.

Lemma visits_pruned props :
  Forall (fun kv => pruned (snd kv)) props ->
  forall sel d fmt a,
    fold_left (CacheFreeVisit.visit sel d fmt weaker)
      (flat_map (pruneEntry isOmitted sel) props) a
    = fold_left (CacheFreeVisit.visit sel d fmt isOmitted) props a.
Proof.
  intros Hprops sel d fmt a. rewrite fold_left_flat_map.
  apply (fold_left_ext_Forall _ _ _ props Hprops).
  intros [key child] Hchild a'. apply visit_pruned, Hchild.
Qed.

Lemma walker_pruned style : pruned style.
Proof.
  induction style as [ | | b | z | s | props IH] using jsval_nested_ind.
  1-5: split; intros; reflexivity.
  split.
  - intros sel d fmt out.
    rewrite prune_unfold, !compileRuleNode_unfold, (visits_pruned props IH).
    unfold CacheFreeVisit.ownRule. cbn [get].
    rewrite lookup_block_prune. reflexivity.
  - intros name parent d fmt.
    rewrite prune_unfold, !compileAtRule_unfold, (visits_pruned props IH).
    unfold CacheFreeVisit.ownDeclarations. cbn [get].
    rewrite lookup_block_prune. reflexivity.
Qed.

Lemma compileRoot_pruned style fmt :
  CacheFree.compileRoot (prune isOmitted "" style) fmt weaker
  = CacheFree.compileRoot style fmt isOmitted.
Proof.
  unfold CacheFree.compileRoot. rewrite falsy_prune.
  destruct (falsy style); [reflexivity|].
  destruct style as [ | | b | z | s | props]; try reflexivity.
  rewrite prune_unfold. f_equal. apply visits_pruned, Forall_forall.
  intros kv _. apply walker_pruned.
Qed.

End Pruning.

(** The matcher [compileStyle] builds from its options. *)
Definition matcherOf (options : CompileOptionsInput) : string -> bool :=
  createOmitMatcher (omit (normalizeOptions options)).

(** C4. Compiling a tree gives what compiling it without its excluded
    nodes gives, each removed with all that lies below it; hence two
    trees that differ only at or below excluded nodes, whatever the
    selectors of the descendants there, compile to the same text. *)
Theorem excluded_subtree_dropped (style : jsval)
  (options : CompileOptionsInput) (cache : gmap string string) :
  reachable cache ->
  fst (compileStyle style options cache)
  = fst (compileStyle (prune (matcherOf options) "" style) options cache)
  /\ forall other,
       prune (matcherOf options) "" other = prune (matcherOf options) "" style ->
       fst (compileStyle other options cache)
       = fst (compileStyle style options cache).
Proof.
  intros Hc.
  assert (Hprune : forall s,
             fst (compileStyle s options cache)
             = fst (compileStyle (prune (matcherOf options) "" s) options cache)).
  { intros s. rewrite !(proj1 (compileStyle_agrees _ _ _ Hc)).
    unfold CacheFree.compileStyle. symmetry.
    apply compileRoot_pruned. auto. }
  split; [apply Hprune|].
  intros other Hsame. rewrite (Hprune other), (Hprune style), Hsame.
  reflexivity.
Qed.

(** The tree of the test "omits selectors by glob", and the same tree with
    other content below [.sections]. *)
Definition sections : jsval :=
  JObject
    [("#app",
      JObject
        [("$", JObject [("color", JStr "black")]);
         (".sections",
          JObject [("$", JObject [("display", JStr "grid")]);
                   ("a", JObject [("$", JObject [("color", JStr "blue")])])])])].

Definition sectionsOther : jsval :=
  JObject
    [("#app",
      JObject
        [("$", JObject [("color", JStr "black")]);
         (".sections", JObject [("p", JObject [("$", JObject [("margin", JNum 0)])])])])].

Lemma excluded_subtree_dropped_witness :
  reachable ∅ /\
  matcherOf (OptionsArray ["#app .sections"]) "#app .sections a" = false /\
  fst (compileStyle sections (OptionsArray ["#app .sections"]) ∅)
  = "#app{color:black;}" +:+ nl /\
  fst (compileStyle sectionsOther (OptionsArray ["#app .sections"]) ∅)
  = fst (compileStyle sections (OptionsArray ["#app .sections"]) ∅).
Proof.
  split; [apply reachable_empty|]. split; [reflexivity|].
  split; [reflexivity|].
  apply (excluded_subtree_dropped sections (OptionsArray ["#app .sections"]) ∅
           reachable_empty).
  reflexivity.
Defined.

(** ** At-rule keys and exclusion *)

(** The options with the exclusion list taken out. *)
Definition withoutOmit (options : CompileOptionsInput) : CompileOptionsInput :=
  OptionsObject {| omit := None; format := format (normalizeOptions options) |}.

Lemma compileAtRule_wraps_body name style parent depth fmt isOmitted cache :
  fst (compileAtRule name style parent depth fmt isOmitted cache)
  = wrapAtRule name (atRuleBody style parent depth fmt isOmitted cache)
      depth fmt.
Proof.
  destruct style as [ | | b | z | s | props]; try reflexivity.
  rewrite compileAtRule_cache_unfold. unfold atRuleBody. cbn [get].
  destruct (collectDeclarations (lookup "$" props) cache) as [decls c1].
  destruct (fold_left _ props _) as [bodyParts c2]. reflexivity.
Qed.

Lemma nonEmpty_false s : nonEmpty s = false <-> s = "".
Proof. destruct s; simpl; split; intros H; congruence. Qed.

(** C10. The exclusion list acts through [prune] alone, which tests the
    resolved selectors of the children under selector keys and no at-rule
    key: compiling with the list is compiling the pruned tree with no list
    at all.  And for every matcher and every at-rule key, matched or not,
    an at-rule node compiles to nothing exactly when its composed body is
    empty. *)
Theorem at_rule_keys_not_matched :
  (forall style options cache,
     reachable cache ->
     fst (compileStyle style options cache)
     = fst (compileStyle (prune (matcherOf options) "" style)
              (withoutOmit options) cache)) /\
  (forall name style parent depth fmt isOmitted cache,
     fst (compileAtRule name style parent depth fmt isOmitted cache) = ""
     <-> atRuleBody style parent depth fmt isOmitted cache = "").
Proof.
  split.
  - intros style options cache Hc.
    rewrite !(proj1 (compileStyle_agrees _ _ _ Hc)).
    unfold CacheFree.compileStyle. symmetry.
    apply compileRoot_pruned. discriminate.
  - intros name style parent depth fmt isOmitted cache.
    rewrite compileAtRule_wraps_body, <- !nonEmpty_false.
    rewrite nonEmpty_wrapAtRule. reflexivity.
Qed.

Lemma at_rule_keys_not_matched_witness :
  reachable ∅ /\
  matcherOf (OptionsArray ["@media*"]) "@media (max-width: 600px)" = true /\
  fst (compileStyle scenario2 (OptionsArray ["@media*"]) ∅)
  = fst (compileStyle scenario2 OptionsUndefined ∅).
Proof.
  split; [apply reachable_empty|]. split; [reflexivity|].
  rewrite (proj1 at_rule_keys_not_matched scenario2 (OptionsArray ["@media*"])
             ∅ reachable_empty).
  reflexivity.
Defined.

(** ** The formats differ in whitespace only *)

(** White space as [\s] has it, among the code units below 256: tab, line
    feed, vertical tab, form feed, carriage return, space and no-break
    space. *)
Definition isWhitespace (c : ascii) : bool :=
  let code := N_of_ascii c in
  ((9 <=? code) && (code <=? 13) || (code =? 32) || (code =? 160))%N.

(** [s.replace(/\s/g, "")]. *)
Fixpoint stripWhitespace (s : string) : string :=
  match s with
  | EmptyString => ""
  | String c rest =>
      if isWhitespace c then stripWhitespace rest
      else String c (stripWhitespace rest)
  end.

(** Equality of two texts up to one trailing newline on either. *)
Definition upToTrailingNewline (a b : string) : Prop :=
  a = b \/ a = b +:+ nl \/ a +:+ nl = b.

Definition formatOptions (patterns : option (list string))
  (fmt : PlumetFormat) : CompileOptionsInput :=
  OptionsObject {| omit := patterns; format := Some fmt |}.

(** A rule under a descendant selector. *)
Definition descendantRule : jsval :=
  JObject
    [("#app", JObject [("a", JObject [("$", JObject [("color", JStr "blue")])])])].

(** C8, as stated, fails: the space of the descendant selector [#app a]
    stays in the minified text and is gone from the stripped pretty one. *)
Lemma stripped_pretty_is_not_minify :
  stripWhitespace
    (fst (compileStyle descendantRule (formatOptions None FormatPretty) ∅))
  = "#appa{color:blue;}" /\
  fst (compileStyle descendantRule (formatOptions None FormatMinify) ∅)
  = "#app a{color:blue;}" /\
  ~ upToTrailingNewline
      (stripWhitespace
         (fst (compileStyle descendantRule (formatOptions None FormatPretty) ∅)))
      (fst (compileStyle descendantRule (formatOptions None FormatMinify) ∅)).
Proof.
  split; [vm_compute; reflexivity|]. split; [vm_compute; reflexivity|].
  vm_compute. intros [H | [H | H]]; discriminate H.
Qed.

Section Stripping.

Lemma stripWhitespace_append a b :
  stripWhitespace (a +:+ b) = stripWhitespace a +:+ stripWhitespace b.
Proof.
  induction a as [|c a IH]; simpl; [reflexivity|].
  destruct (isWhitespace c); simpl; now rewrite IH.
Qed.

Lemma stripWhitespace_indent depth fmt : stripWhitespace (indent depth fmt) = "".
Proof.
  unfold indent. destruct (negb (isPretty fmt)); [reflexivity|].
  induction depth as [|depth IH]; [reflexivity | exact IH].
Qed.

(** Two texts with the same characters other than white space, empty
    together. *)
Definition alike (a b : string) : Prop :=
  stripWhitespace a = stripWhitespace b /\ nonEmpty a = nonEmpty b.

Lemma alike_refl a : alike a a.
Proof. split; reflexivity. Qed.

Lemma alike_append a1 a2 b1 b2 :
  alike a1 a2 -> alike b1 b2 -> alike (a1 +:+ b1) (a2 +:+ b2).
Proof.
  intros [Ha1 Ha2] [Hb1 Hb2]. split.
  - rewrite !stripWhitespace_append. congruence.
  - rewrite !nonEmpty_append. congruence.
Qed.

Lemma alike_join_app a1 a2 b1 b2 :
  alike (join a1) (join a2) -> alike (join b1) (join b2) ->
  alike (join (a1 ++ b1)) (join (a2 ++ b2)).
Proof. intros Ha Hb. rewrite !join_app. apply alike_append; assumption. Qed.

Lemma alike_join_single b1 b2 : alike b1 b2 -> alike (join [b1]) (join [b2]).
Proof. simpl. rewrite !append_empty_r. auto. Qed.

(** The text of a declaration list without white space. *)
Fixpoint declarationsText (declarations : list declaration) : string :=
  match declarations with
  | [] => ""
  | (prop, value) :: rest =>
      stripWhitespace prop +:+ ":" +:+ stripWhitespace value +:+ ";"
        +:+ declarationsText rest
  end.

Lemma strip_declaration_lines depth fmt declarations :
  stripWhitespace
    (join (flat_map
             (fun '(prop, value) =>
                [indent depth fmt; prop; ": "; value; ";" +:+ nl])
             declarations))
  = declarationsText declarations.
Proof.
  induction declarations as [|[prop value] rest IH]; [reflexivity|].
  cbn [flat_map]. rewrite join_app. cbn [join fold_right declarationsText].
  rewrite !stripWhitespace_append, stripWhitespace_indent, IH.
  cbn. rewrite !append_empty_r, ?append_assoc. reflexivity.
Qed.

Lemma strip_declaration_run declarations :
  stripWhitespace
    (join (flat_map (fun '(prop, value) => [prop; ":"; value; ";"])
             declarations))
  = declarationsText declarations.
Proof.
  induction declarations as [|[prop value] rest IH]; [reflexivity|].
  cbn [flat_map]. rewrite join_app. cbn [join fold_right declarationsText].
  rewrite !stripWhitespace_append, IH.
  cbn. rewrite !append_empty_r, ?append_assoc. reflexivity.
Qed.

Lemma strip_writeDeclarations declarations depth fmt :
  stripWhitespace (join (writeDeclarations [] declarations depth fmt))
  = declarationsText declarations.
Proof.
  unfold writeDeclarations. destruct (isPretty fmt);
    rewrite fold_left_push_pair; cbn [app].
  - apply strip_declaration_lines.
  - apply strip_declaration_run.
Qed.

Lemma nonEmpty_writeDeclarations declarations depth fmt :
  nonEmpty (join (writeDeclarations [] declarations depth fmt))
  = match declarations with [] => false | _ => true end.
Proof.
  unfold writeDeclarations. destruct (isPretty fmt);
    rewrite fold_left_push_pair; cbn [app];
    destruct declarations as [|[prop value] rest]; try reflexivity;
    cbn [flat_map]; rewrite join_app; cbn [join fold_right];
    rewrite !nonEmpty_append; cbn [nonEmpty];
    rewrite ?orb_true_r; reflexivity.
Qed.

Lemma alike_writeDeclarations declarations depth1 fmt1 depth2 fmt2 :
  alike (join (writeDeclarations [] declarations depth1 fmt1))
        (join (writeDeclarations [] declarations depth2 fmt2)).
Proof.
  split.
  - rewrite !strip_writeDeclarations. reflexivity.
  - rewrite !nonEmpty_writeDeclarations. reflexivity.
Qed.

Lemma strip_writeRule selector declarations depth fmt :
  stripWhitespace (join (writeRule [] selector declarations depth fmt))
  = stripWhitespace selector +:+ "{" +:+ declarationsText declarations +:+ "}".
Proof.
  unfold writeRule. destruct fmt; cbn [isPretty isDefault];
    rewrite fold_left_push_pair; rewrite ?join_app;
    rewrite ?stripWhitespace_append;
    rewrite ?strip_declaration_lines, ?strip_declaration_run;
    cbn [app join fold_right];
    rewrite ?stripWhitespace_append, ?stripWhitespace_indent;
    cbn; rewrite ?append_empty_r, ?append_assoc; reflexivity.
Qed.

Lemma nonEmpty_writeRule selector declarations depth fmt :
  nonEmpty (join (writeRule [] selector declarations depth fmt)) = true.
Proof.
  unfold writeRule. destruct fmt; cbn [isPretty isDefault];
    rewrite fold_left_push_pair; rewrite ?join_app;
    cbn [app join fold_right];
    rewrite !nonEmpty_append; cbn [nonEmpty];
    rewrite ?orb_true_r; reflexivity.
Qed.

Lemma alike_writeRule selector declarations depth1 fmt1 depth2 fmt2 :
  alike (join (writeRule [] selector declarations depth1 fmt1))
        (join (writeRule [] selector declarations depth2 fmt2)).
Proof.
  split.
  - rewrite !strip_writeRule. reflexivity.
  - rewrite !nonEmpty_writeRule. reflexivity.
Qed.

Lemma strip_wrapAtRule name body depth fmt :
  nonEmpty body = true ->
  stripWhitespace (wrapAtRule name body depth fmt)
  = stripWhitespace name +:+ "{" +:+ stripWhitespace body +:+ "}".
Proof.
  intros Hbody. unfold wrapAtRule. rewrite Hbody. cbn [negb].
  destruct fmt; cbn [isPretty isDefault];
    rewrite ?stripWhitespace_append, ?stripWhitespace_indent;
    cbn; rewrite ?append_empty_r; reflexivity.
Qed.

Lemma alike_wrapAtRule name body1 body2 depth1 fmt1 depth2 fmt2 :
  alike body1 body2 ->
  alike (wrapAtRule name body1 depth1 fmt1) (wrapAtRule name body2 depth2 fmt2).
Proof.
  intros [Hstrip Hempty]. split.
  - destruct (nonEmpty body1) eqn:E1.
    + rewrite !strip_wrapAtRule by congruence. congruence.
    + symmetry in Hempty. apply nonEmpty_false in E1, Hempty. subst.
      reflexivity.
  - rewrite !nonEmpty_wrapAtRule. exact Hempty.
Qed.

End Stripping.

Lemma fold_left_related {A1 A2 B : Type} (R : A1 -> A2 -> Prop)
  (f : A1 -> B -> A1) (g : A2 -> B -> A2) (l : list B) :
  Forall (fun x => forall a1 a2, R a1 a2 -> R (f a1 x) (g a2 x)) l ->
  forall a1 a2, R a1 a2 -> R (fold_left f l a1) (fold_left g l a2).
Proof.
  induction 1 as [|x l Hx _ IH]; intros a1 a2 Ha; simpl; [exact Ha|].
  apply IH, Hx, Ha.
Qed.

(** What the walker pushes in two formats (and at two depths) is alike. *)
Definition formatBlind (style : jsval) : Prop :=
  (forall sel d1 fmt1 d2 fmt2 om out1 out2,
     alike (join out1) (join out2) ->
     alike (join (CacheFree.compileRuleNode sel style d1 fmt1 om out1))
           (join (CacheFree.compileRuleNode sel style d2 fmt2 om out2))) /\
  (forall name parent d1 fmt1 d2 fmt2 om,
     alike (CacheFree.compileAtRule name style parent d1 fmt1 om)
           (CacheFree.compileAtRule name style parent d2 fmt2 om)).

Lemma visit_formatBlind key child :
  formatBlind child ->
  forall sel d1 fmt1 d2 fmt2 om out1 out2,
    alike (join out1) (join out2) ->
    alike (join (CacheFreeVisit.visit sel d1 fmt1 om out1 (key, child)))
          (join (CacheFreeVisit.visit sel d2 fmt2 om out2 (key, child))).
Proof.
  intros [Hrule Hat] sel d1 fmt1 d2 fmt2 om out1 out2 Hout.
  unfold CacheFreeVisit.visit.
  destruct (skippedKey key); [exact Hout|].
  destruct (notAnObject child); [exact Hout|].
  destruct (isAtRuleKey key).
  - pose proof (Hat key sel d1 fmt1 d2 fmt2 om) as Hbody.
    destruct Hbody as [Hstrip Hempty]. rewrite <- Hempty.
    destruct (nonEmpty (CacheFree.compileAtRule key child sel d1 fmt1 om))
      eqn:E1; [|exact Hout].
    apply alike_join_app; [exact Hout|].
    apply alike_join_single. split; [exact Hstrip | congruence].
  - destruct (om _); [exact Hout|]. apply Hrule, Hout.
Qed.

Lemma walker_formatBlind style : formatBlind style.
Proof.
  induction style as [ | | b | z | s | props IH] using jsval_nested_ind.
  1-5: split; intros; cbn; auto using alike_refl.
  assert (Hvisit : forall sel d1 fmt1 d2 fmt2 om,
             Forall (fun kv => forall out1 out2,
                       alike (join out1) (join out2) ->
                       alike (join (CacheFreeVisit.visit sel d1 fmt1 om out1 kv))
                             (join (CacheFreeVisit.visit sel d2 fmt2 om out2 kv)))
                    props).
  { intros sel d1 fmt1 d2 fmt2 om. eapply Forall_impl; [exact IH|].
    intros [key child] Hchild out1 out2. apply visit_formatBlind, Hchild. }
  split.
  - intros sel d1 fmt1 d2 fmt2 om out1 out2 Hout.
    rewrite !compileRuleNode_unfold.
    apply (fold_left_related
             (fun a1 a2 => alike (join a1) (join a2)) _ _ props
             (Hvisit sel d1 fmt1 d2 fmt2 om)).
    unfold CacheFreeVisit.ownRule. cbn [get].
    destruct (CacheFree.collectDeclarations (lookup "$" props)) as [|x l];
      [exact Hout|].
    rewrite (writeRule_app out1), (writeRule_app out2).
    apply alike_join_app; [exact Hout | apply alike_writeRule].
  - intros name parent d1 fmt1 d2 fmt2 om.
    rewrite !compileAtRule_unfold. apply alike_wrapAtRule.
    apply (fold_left_related
             (fun a1 a2 => alike (join a1) (join a2)) _ _ props
             (Hvisit parent (d1 + 1) fmt1 (d2 + 1) fmt2 om)).
    unfold CacheFreeVisit.ownDeclarations. cbn [get].
    destruct (CacheFree.collectDeclarations (lookup "$" props)) as [|x l];
      [apply alike_refl | apply alike_writeDeclarations].
Qed.

Lemma compileRoot_formatBlind style fmt1 fmt2 om :
  alike (CacheFree.compileRoot style fmt1 om)
        (CacheFree.compileRoot style fmt2 om).
Proof.
  unfold CacheFree.compileRoot. destruct (falsy style); [apply alike_refl|].
  apply (fold_left_related (fun a1 a2 => alike (join a1) (join a2)));
    [|apply alike_refl].
  apply Forall_forall. intros [key child] _ out1 out2.
  apply visit_formatBlind, walker_formatBlind.
Qed.

(** C8, amended. For every tree and exclusion list, the pretty output and
    the minified output are the same once white space is removed from
    both. *)
Theorem pretty_minify_same_without_whitespace (style : jsval)
  (patterns : option (list string)) (cache1 cache2 : gmap string string) :
  reachable cache1 -> reachable cache2 ->
  stripWhitespace
    (fst (compileStyle style (formatOptions patterns FormatPretty) cache1))
  = stripWhitespace
      (fst (compileStyle style (formatOptions patterns FormatMinify) cache2)).
Proof.
  intros H1 H2.
  rewrite (proj1 (compileStyle_agrees _ _ _ H1)).
  rewrite (proj1 (compileStyle_agrees _ _ _ H2)).
  apply compileRoot_formatBlind.
Qed.

Lemma pretty_minify_same_without_whitespace_witness :
  reachable ∅ /\
  stripWhitespace
    (fst (compileStyle descendantRule (formatOptions None FormatPretty) ∅))
  = stripWhitespace
      (fst (compileStyle descendantRule (formatOptions None FormatMinify) ∅)).
Proof.
  split; [apply reachable_empty|].
  apply pretty_minify_same_without_whitespace; apply reachable_empty.
Defined.


(** * Further properties of the generator *)

(** ** Property names in kebab case *)

(** An upper-case ASCII letter, as the loop of [kebabCase] tests it. *)
Definition isUpper (c : ascii) : bool :=
  let code := Z.of_N (N_of_ascii c) in ((65 <=? code) && (code <=? 90))%Z.

(** No upper-case ASCII letter among the characters of a string. *)
Fixpoint upperFree (s : string) : bool :=
  match s with
  | EmptyString => true
  | String c rest => negb (isUpper c) && upperFree rest
  end.

(** The number of upper-case ASCII letters of a string. *)
Fixpoint countUpper (s : string) : nat :=
  match s with
  | EmptyString => 0
  | String c rest => (if isUpper c then 1 else 0) + countUpper rest
  end.

Section KebabFacts.

Lemma kebabLoop_result key :
  forall result, kebabLoop key result = result +:+ kebabLoop key "".
Proof.
  induction key as [|c key IH]; intros result; cbn [kebabLoop].
  - now rewrite append_empty_r.
  - destruct (_ && _); rewrite IH, (IH (String.append "" _));
      rewrite ?append_assoc; reflexivity.
Qed.

Lemma kebabLoop_cons c key :
  kebabLoop (String c key) ""
  = (if isUpper c
     then String "-" (String (ascii_of_N (Z.to_N (Z.of_N (N_of_ascii c) + 32))) "")
     else String c "") +:+ kebabLoop key "".
Proof.
  cbn [kebabLoop]. unfold isUpper. cbv zeta.
  destruct (_ && _); rewrite kebabLoop_result; reflexivity.
Qed.

Lemma lowered_not_upper c :
  isUpper c = true ->
  isUpper (ascii_of_N (Z.to_N (Z.of_N (N_of_ascii c) + 32))) = false.
Proof.
  destruct c as [[] [] [] [] [] [] [] []]; vm_compute; congruence.
Qed.

Lemma kebabLoop_upperFree key : upperFree (kebabLoop key "") = true.
Proof.
  induction key as [|c key IH]; [reflexivity|].
  rewrite kebabLoop_cons. destruct (isUpper c) eqn:E; cbn.
  - rewrite (lowered_not_upper c E). exact IH.
  - rewrite E. exact IH.
Qed.

Lemma kebabLoop_fixed key : upperFree key = true -> kebabLoop key "" = key.
Proof.
  induction key as [|c key IH]; intros H; [reflexivity|].
  cbn in H. apply andb_true_iff in H as [Hc H]. apply negb_true_iff in Hc.
  rewrite kebabLoop_cons, Hc, (IH H). reflexivity.
Qed.

Lemma kebabLoop_length key :
  String.length (kebabLoop key "") = String.length key + countUpper key.
Proof.
  induction key as [|c key IH]; [reflexivity|].
  cbn [countUpper]. rewrite kebabLoop_cons, length_append, IH.
  destruct (isUpper c); simpl String.length; lia.
Qed.

End KebabFacts.

(** X1. Whatever the key and the state of the cache, the name [kebabCase]
    returns holds no upper-case ASCII letter, and it is longer than the
    key by one character (the hyphen) for each upper-case letter of the
    key. *)
Theorem kebabCase_lower (key : string) (cache : gmap string string) :
  reachable cache ->
  upperFree (fst (kebabCase key cache)) = true /\
  String.length (fst (kebabCase key cache))
  = String.length key + countUpper key.
Proof.
  intros Hc. rewrite (proj1 (kebabCase_reachable key cache Hc)).
  unfold CacheFree.kebabCase. split.
  - apply kebabLoop_upperFree.
  - apply kebabLoop_length.
Qed.

Lemma kebabCase_lower_witness :
  reachable ∅ /\
  fst (kebabCase "WebkitBoxShadow" ∅) = "-webkit-box-shadow" /\
  upperFree (fst (kebabCase "WebkitBoxShadow" ∅)) = true.
Proof.
  split; [apply reachable_empty|]. split; [reflexivity|].
  apply (kebabCase_lower "WebkitBoxShadow" ∅ reachable_empty).
Defined.

(** X2. A key without upper-case ASCII letters is returned as it is, and
    [kebabCase] is idempotent: applied to a name it returned, in any state
    of the cache, it returns that name. *)
Theorem kebabCase_idempotent (key : string) (cache later : gmap string string) :
  reachable cache -> reachable later ->
  (upperFree key = true -> fst (kebabCase key cache) = key) /\
  fst (kebabCase (fst (kebabCase key cache)) later) = fst (kebabCase key cache).
Proof.
  intros Hc Hl. rewrite (proj1 (kebabCase_reachable key cache Hc)).
  rewrite (proj1 (kebabCase_reachable _ later Hl)).
  unfold CacheFree.kebabCase. split.
  - apply kebabLoop_fixed.
  - apply kebabLoop_fixed, kebabLoop_upperFree.
Qed.

Lemma kebabCase_idempotent_witness :
  reachable ∅ /\ upperFree "--main-color" = true /\
  fst (kebabCase "--main-color" ∅) = "--main-color".
Proof.
  split; [apply reachable_empty|]. split; [reflexivity|].
  apply (proj1 (kebabCase_idempotent "--main-color" ∅ ∅ reachable_empty
                  reachable_empty)).
  reflexivity.
Defined.

(** ** The cache only grows *)

Section CacheGrowth.

(** A later state of the cache: reachable, and holding every entry of the
    earlier one. *)
Definition extends (cache later : gmap string string) : Prop :=
  reachable later /\ cache ⊆ later.

Lemma extends_refl cache : reachable cache -> extends cache cache.
Proof. intros H. split; [exact H | reflexivity]. Qed.

Lemma extends_trans c1 c2 c3 : extends c1 c2 -> extends c2 c3 -> extends c1 c3.
Proof. intros [_ H12] [H3 H23]. split; [exact H3 | etrans; eassumption]. Qed.

Lemma kebabCase_extends key cache :
  reachable cache -> extends cache (snd (kebabCase key cache)).
Proof.
  intros Hc. split; [apply reachable_call, Hc|].
  pose proof (reachable_consistent cache Hc) as Hcons.
  unfold kebabCase. destruct (cache !! key) as [cached|] eqn:E.
  - destruct (nonEmpty cached); simpl; [reflexivity|].
    rewrite <- (Hcons key cached E), insert_id by exact E. reflexivity.
  - simpl. apply insert_subseteq, E.
Qed.

Lemma fold_left_extends {A B : Type}
  (f : A * gmap string string -> B -> A * gmap string string) (l : list B) :
  Forall (fun x => forall a c, reachable c -> extends c (snd (f (a, c) x))) l ->
  forall a c, reachable c -> extends c (snd (fold_left f l (a, c))).
Proof.
  induction 1 as [|x l Hx _ IH]; intros a c Hc; simpl;
    [apply extends_refl, Hc|].
  pose proof (Hx a c Hc) as Hstep.
  destruct (f (a, c) x) as [a' c']. simpl in Hstep.
  eapply extends_trans; [exact Hstep|]. apply IH, Hstep.
Qed.

Lemma collectDeclarations_extends props cache :
  reachable cache -> extends cache (snd (collectDeclarations props cache)).
Proof.
  intros Hc. unfold collectDeclarations.
  destruct (falsy props); [apply extends_refl, Hc|].
  apply fold_left_extends; [|exact Hc].
  apply Forall_forall. intros [k v] _ a c Hc'.
  destruct (nullish v); [apply extends_refl, Hc'|].
  pose proof (kebabCase_extends k c Hc') as H.
  destruct (kebabCase k c) as [name c']. exact H.
Qed.

Definition growing (style : jsval) : Prop :=
  (forall sel d fmt om out c, reachable c ->
     extends c (snd (compileRuleNode sel style d fmt om out c))) /\
  (forall name parent d fmt om c, reachable c ->
     extends c (snd (compileAtRule name style parent d fmt om c))).

Lemma visit_growing key child :
  growing child ->
  forall sel d fmt om a c, reachable c ->
    extends c (snd (visit sel d fmt om (a, c) (key, child))).
Proof.
  intros [Hrule Hat] sel d fmt om a c Hc. unfold visit.
  destruct (skippedKey key); [apply extends_refl, Hc|].
  destruct (notAnObject child); [apply extends_refl, Hc|].
  destruct (isAtRuleKey key).
  - pose proof (Hat key sel d fmt om c Hc) as H.
    destruct (compileAtRule key child sel d fmt om c) as [body c'].
    destruct (nonEmpty body); exact H.
  - destruct (om _); [apply extends_refl, Hc | apply Hrule, Hc].
Qed.

Lemma walker_growing style : growing style.
Proof.
  induction style as [ | | b | z | s | props IH] using jsval_nested_ind.
  1-5: split; intros; cbn; apply extends_refl; assumption.
  assert (Hvisit : forall sel d fmt om,
             Forall (fun kv => forall a c, reachable c ->
                       extends c (snd (visit sel d fmt om (a, c) kv))) props).
  { intros sel d fmt om. eapply Forall_impl; [exact IH|].
    intros [key child] Hchild. apply visit_growing, Hchild. }
  split.
  - intros sel d fmt om out c Hc. rewrite compileRuleNode_cache_unfold.
    pose proof (collectDeclarations_extends (lookup "$" props) c Hc) as H.
    destruct (collectDeclarations (lookup "$" props) c) as [decls c1].
    simpl in H. eapply extends_trans; [exact H|].
    apply fold_left_extends; [apply Hvisit | apply H].
  - intros name parent d fmt om c Hc. rewrite compileAtRule_cache_unfold.
    pose proof (collectDeclarations_extends (lookup "$" props) c Hc) as H.
    destruct (collectDeclarations (lookup "$" props) c) as [decls c1].
    simpl in H. eapply extends_trans; [exact H|].
    match goal with
    | |- context [fold_left ?f props (?a, c1)] =>
        pose proof (fold_left_extends f props (Hvisit parent (d + 1) fmt om)
                      a c1 (proj1 H)) as Hfold;
        destruct (fold_left f props (a, c1)) as [bodyParts c2]
    end.
    exact Hfold.
Qed.

Lemma compileStyle_extends style options cache :
  reachable cache -> extends cache (snd (compileStyle style options cache)).
Proof.
  intros Hc. unfold compileStyle.
  destruct (falsy style); [apply extends_refl, Hc|].
  match goal with
  | |- context [fold_left ?f ?l (?a, cache)] =>
      assert (Hfold : extends cache (snd (fold_left f l (a, cache))));
      [|destruct (fold_left f l (a, cache)) as [out c2]; exact Hfold]
  end.
  apply (fold_left_extends
           (visit "" 0 (default FormatDefault (format (normalizeOptions options)))
              (createOmitMatcher (omit (normalizeOptions options)))));
    [|exact Hc].
  apply Forall_forall. intros [key child] _. apply visit_growing, walker_growing.
Qed.

End CacheGrowth.

(** X3. A call of [kebabCase] leaves the result under its key in the
    cache and removes or changes no entry: a later lookup of the key finds
    what the call returned. *)
Theorem kebabCase_remembers (key : string) (cache : gmap string string) :
  reachable cache ->
  cache ⊆ snd (kebabCase key cache) /\
  snd (kebabCase key cache) !! key = Some (fst (kebabCase key cache)).
Proof.
  intros Hc. split; [apply kebabCase_extends, Hc|].
  unfold kebabCase. destruct (cache !! key) as [cached|] eqn:E.
  - destruct (nonEmpty cached) eqn:En; simpl.
    + exact E.
    + apply lookup_insert_eq.
  - simpl. apply lookup_insert_eq.
Qed.

Lemma kebabCase_remembers_witness :
  reachable ∅ /\
  snd (kebabCase "fontSize" ∅) !! "fontSize" = Some "font-size".
Proof.
  split; [apply reachable_empty|].
  rewrite (proj2 (kebabCase_remembers "fontSize" ∅ reachable_empty)).
  reflexivity.
Defined.

(** X4. A compilation never removes or changes an entry of the cache: the
    cache it leaves holds every entry it found, and is a state later
    compilations can start from. *)
Theorem compileStyle_keeps_cache (style : jsval)
  (options : CompileOptionsInput) (cache : gmap string string) :
  reachable cache ->
  cache ⊆ snd (compileStyle style options cache) /\
  reachable (snd (compileStyle style options cache)).
Proof.
  intros Hc. destruct (compileStyle_extends style options cache Hc) as [H1 H2].
  split; assumption.
Qed.

Lemma compileStyle_keeps_cache_witness :
  let warm := snd (kebabCase "zIndex" ∅) in
  reachable warm /\
  snd (compileStyle scenario1 OptionsUndefined warm) !! "zIndex" = Some "z-index".
Proof.
  intros warm.
  assert (Hwarm : reachable warm) by apply reachable_call, reachable_empty.
  split; [exact Hwarm|].
  apply (lookup_weaken warm); [reflexivity|].
  apply (compileStyle_keeps_cache scenario1 OptionsUndefined warm Hwarm).
Defined.

(** ** Parent references *)

Section ReferenceFacts.

Lemma replaceAll_append a b parent :
  replaceAll (a +:+ b) parent = replaceAll a parent +:+ replaceAll b parent.
Proof.
  induction a as [|c a IH]; [reflexivity|].
  cbn [String.append replaceAll]. rewrite IH, append_assoc. reflexivity.
Qed.

Lemma replaceAll_reference template : replaceAll template "&" = template.
Proof.
  induction template as [|c template IH]; [reflexivity|].
  cbn [replaceAll]. rewrite IH.
  destruct (Ascii.eqb_spec c "&") as [->|_]; reflexivity.
Qed.

Lemma ampFree_append a b : ampFree (a +:+ b) = ampFree a && ampFree b.
Proof.
  induction a as [|c a IH]; [reflexivity|].
  cbn [String.append ampFree]. rewrite IH, andb_assoc. reflexivity.
Qed.

Lemma ampFree_replaceAll template parent :
  ampFree parent = true -> ampFree (replaceAll template parent) = true.
Proof.
  intros Hp. induction template as [|c template IH]; [reflexivity|].
  cbn [replaceAll]. rewrite ampFree_append, IH, andb_true_r.
  destruct (Ascii.eqb c "&") eqn:E; [exact Hp|].
  cbn. rewrite E. reflexivity.
Qed.

Lemma indexFrom_none_ampFree key :
  forall i, (0 <= i)%Z -> indexFrom key "&" i 0 = (-1)%Z -> ampFree key = true.
Proof.
  induction key as [|c key IH]; intros i Hi H; [reflexivity|].
  cbn [indexFrom] in H. destruct (Z.leb_spec 0 i); [|lia].
  cbn [andb] in H. cbn [ampFree].
  destruct (Ascii.eqb c "&"); [lia|].
  apply (IH (i + 1)%Z); [lia | exact H].
Qed.

End ReferenceFacts.

(** X5. Replacing the references of a template by [&] itself gives the
    template back: [injectSelector] changes nothing but the references. *)
Theorem injectSelector_reference (template : string) :
  injectSelector template "&" = template.
Proof. rewrite injectSelector_replaceAll. apply replaceAll_reference. Qed.

(** X6. [injectSelector] works piece by piece: on a template made of two
    parts it gives the results for the parts, one after the other. *)
Theorem injectSelector_append (a b selector : string) :
  injectSelector (a +:+ b) selector
  = injectSelector a selector +:+ injectSelector b selector.
Proof. rewrite !injectSelector_replaceAll. apply replaceAll_append. Qed.

(** X7. No reference is left unresolved: when the parent selector holds no
    [&], neither does the resolved selector, whatever the key. *)
Theorem resolveSelector_ampFree (parent key : string) :
  ampFree parent = true -> ampFree (resolveSelector parent key) = true.
Proof.
  intros Hp. unfold resolveSelector.
  destruct (Z.eqb_spec (indexOf key "&" 0) (-1)) as [Hnone|_]; cbn [negb].
  - assert (Hkey : ampFree key = true)
      by (apply (indexFrom_none_ampFree key 0%Z); [lia | exact Hnone]).
    destruct (codeIs _ _); [|destruct (nonEmpty parent)];
      rewrite ?ampFree_append, ?Hp, ?Hkey; reflexivity.
  - rewrite injectSelector_replaceAll. apply ampFree_replaceAll, Hp.
Qed.

Lemma resolveSelector_ampFree_witness :
  ampFree ".card" = true /\
  resolveSelector ".card" "&:hover, &:focus" = ".card:hover, .card:focus" /\
  ampFree (resolveSelector ".card" "&:hover, &:focus") = true.
Proof.
  split; [reflexivity|]. split; [reflexivity|].
  apply (resolveSelector_ampFree ".card" "&:hover, &:focus"). reflexivity.
Defined.

(** ** Exclusion patterns *)

(** No wildcard among the characters of a pattern. *)
Fixpoint starFree (pattern : string) : bool :=
  match pattern with
  | EmptyString => true
  | String c rest => negb (Ascii.eqb c "*") && starFree rest
  end.

Section PatternFacts.

Lemma globMatchesWith_starFree any pattern :
  starFree pattern = true ->
  forall s, globMatchesWith any pattern s <-> s = pattern.
Proof.
  induction pattern as [|c pattern IH]; intros Hfree s.
  - split; intros H; [inversion H; reflexivity | subst; constructor].
  - cbn in Hfree. apply andb_true_iff in Hfree as [Hc Hfree].
    apply negb_true_iff in Hc. split; intros H.
    + inversion H; subst; try discriminate.
      f_equal. apply (IH Hfree). assumption.
    + subst s. apply glob_char; [exact Hc|]. apply (IH Hfree). reflexivity.
Qed.

Lemma lineFree_cons c s :
  lineFree (String c s) <-> RegExp.lineTerminator c = false /\ lineFree s.
Proof.
  unfold lineFree. cbn [list_ascii_of_string]. split.
  - intros H. split; [apply H; left; reflexivity|].
    intros x Hx. apply H. right. exact Hx.
  - intros [Hc Hs] x [<- | Hx]; [exact Hc | apply Hs, Hx].
Qed.

Lemma lineFree_empty : lineFree "".
Proof. intros c []. Qed.

Lemma globMatchesWith_star s :
  globMatchesWith dotAdmits "*" s <-> lineFree s.
Proof.
  induction s as [|c s IH].
  - split; intros _; [apply lineFree_empty | apply glob_star_empty; constructor].
  - rewrite lineFree_cons, <- IH. split.
    + intros H. inversion H; subst; try discriminate.
      * match goal with Hnil : globMatchesWith _ "" _ |- _ => inversion Hnil end.
      * split; [|assumption].
        match goal with
        | Hc : dotAdmits c = true |- _ =>
            unfold dotAdmits in Hc; apply negb_true_iff in Hc; exact Hc
        end.
    + intros [Hc H]. apply glob_star_more; [|exact H].
      unfold dotAdmits. rewrite Hc. reflexivity.
Qed.

Lemma globMatchesWith_prefix pattern :
  starFree pattern = true ->
  forall s,
    globMatchesWith dotAdmits (pattern +:+ "*") s
    <-> exists rest, s = pattern +:+ rest /\ lineFree rest.
Proof.
  induction pattern as [|c pattern IH]; intros Hfree s.
  - cbn [String.append]. rewrite globMatchesWith_star. split.
    + intros H. exists s. split; [reflexivity | exact H].
    + intros (rest & -> & H). exact H.
  - cbn in Hfree. apply andb_true_iff in Hfree as [Hc Hfree].
    apply negb_true_iff in Hc. cbn [String.append]. split.
    + intros H. inversion H; subst; try discriminate.
      match goal with
      | Hrest : globMatchesWith _ (pattern +:+ "*") _ |- _ =>
          apply (IH Hfree) in Hrest; destruct Hrest as (rest & -> & Hline)
      end.
      exists rest. split; [reflexivity | exact Hline].
    + intros (rest & -> & Hline). apply glob_char; [exact Hc|].
      apply (IH Hfree). exists rest. split; [reflexivity | exact Hline].
Qed.

Lemma createOmitMatcher_existsb patterns selector :
  createOmitMatcher (Some patterns) selector
  = existsb (fun re => RegExp.test re selector) (map globToRegex patterns).
Proof. unfold createOmitMatcher. cbn [default]. destruct patterns; reflexivity. Qed.

End PatternFacts.

(** X8. Every pattern compiles: the source text built from a glob, with
    its special characters escaped and its wildcards translated, is a
    valid regular expression, and [globToRegex] is what it parses to. *)
Theorem globToRegex_never_fails (glob : string) :
  RegExp.parse (globSource glob) = Some (globToRegex glob).
Proof. rewrite globToRegex_compiles, globToRegex_terms. reflexivity. Qed.

(** X9. A pattern without wildcard excludes one selector, itself: every
    character of it, also one that is special in a regular expression,
    stands for itself, and the match spans the whole selector. *)
Theorem exact_pattern_matches_itself (pattern selector : string) :
  starFree pattern = true ->
  createOmitMatcher (Some [pattern]) selector = true <-> selector = pattern.
Proof.
  intros Hfree. rewrite createOmitMatcher_matches. cbn [default]. split.
  - intros (p & [<- | []] & H).
    apply (globMatchesWith_starFree dotAdmits pattern Hfree). exact H.
  - intros ->. exists pattern. split; [left; reflexivity|].
    apply (globMatchesWith_starFree dotAdmits pattern Hfree). reflexivity.
Qed.

Lemma exact_pattern_matches_itself_witness :
  starFree "a[href$=.pdf] + .x" = true /\
  createOmitMatcher (Some ["a[href$=.pdf] + .x"]) "a[href$=.pdf] + .x" = true /\
  createOmitMatcher (Some ["a.b"]) "axb" = false.
Proof.
  split; [reflexivity|]. split.
  - apply (exact_pattern_matches_itself "a[href$=.pdf] + .x"); reflexivity.
  - reflexivity.
Defined.

(** X10. A list of patterns excludes what one of its patterns excludes:
    the predicate of two lists put together is the disjunction of their
    predicates, and an absent list is an empty one. *)
Theorem createOmitMatcher_app (patterns more : list string) (selector : string) :
  createOmitMatcher (Some (patterns ++ more)) selector
  = createOmitMatcher (Some patterns) selector
    || createOmitMatcher (Some more) selector
  /\ createOmitMatcher None selector = createOmitMatcher (Some []) selector.
Proof.
  split; [|reflexivity].
  rewrite !createOmitMatcher_existsb, map_app, existsb_app. reflexivity.
Qed.

(** X11. A pattern that ends in its only wildcard excludes the selectors
    that start with the text before the wildcard and go on without a line
    terminator. *)
Theorem prefix_pattern_matches (pattern selector : string) :
  starFree pattern = true ->
  createOmitMatcher (Some [pattern +:+ "*"]) selector = true
  <-> exists rest, selector = pattern +:+ rest /\ lineFree rest.
Proof.
  intros Hfree. rewrite createOmitMatcher_matches. cbn [default].
  rewrite <- (globMatchesWith_prefix pattern Hfree). split.
  - intros (p & [<- | []] & H). exact H.
  - intros H. exists (pattern +:+ "*"). split; [left; reflexivity | exact H].
Qed.

Lemma prefix_pattern_matches_witness :
  starFree "#app .sections" = true /\
  createOmitMatcher (Some ["#app .sections" +:+ "*"]) "#app .sections a:hover"
  = true /\
  createOmitMatcher (Some ["#app .sections" +:+ "*"]) "#app .socials" = false.
Proof.
  split; [reflexivity|]. split; [|reflexivity].
  apply (prefix_pattern_matches "#app .sections"); [reflexivity|].
  exists " a:hover". split; [reflexivity|].
  intros c Hc. cbn in Hc.
  repeat (destruct Hc as [<- | Hc]; [reflexivity|]). destruct Hc.
Defined.

(** ** Trees that render nothing *)

(** A tree without a declaration to render: at every depth the block of a
    node is absent or holds absent values only.  Entries the walker skips
    (the empty key, [$], values that are not objects) do not count. *)
Fixpoint declarationFree (style : jsval) : bool :=
  match style with
  | JObject props =>
      allAbsent (lookup "$" props)
      && forallb
           (fun kv : string * jsval =>
              skippedKey (fst kv) || notAnObject (snd kv)
              || declarationFree (snd kv))
           props
  | _ => true
  end.

Section NothingToRender.

Definition silent (style : jsval) : Prop :=
  declarationFree style = true ->
  (forall sel d fmt om out c,
     compileRuleNode sel style d fmt om out c = (out, c)) /\
  (forall name parent d fmt om c,
     compileAtRule name style parent d fmt om c = ("", c)).

Lemma visit_silent key child :
  silent child ->
  skippedKey key || notAnObject child || declarationFree child = true ->
  forall sel d fmt om st, visit sel d fmt om st (key, child) = st.
Proof.
  intros Hchild Hfree sel d fmt om [out c]. unfold visit.
  destruct (skippedKey key); [reflexivity|].
  destruct (notAnObject child); [reflexivity|].
  cbn [orb] in Hfree. destruct (Hchild Hfree) as [Hrule Hat].
  destruct (isAtRuleKey key).
  - rewrite Hat. reflexivity.
  - destruct (om _); [reflexivity | apply Hrule].
Qed.

Lemma visits_silent props :
  Forall (fun kv => silent (snd kv)) props ->
  forallb
    (fun kv : string * jsval =>
       skippedKey (fst kv) || notAnObject (snd kv) || declarationFree (snd kv))
    props = true ->
  forall sel d fmt om st, fold_left (visit sel d fmt om) props st = st.
Proof.
  induction 1 as [|[key child] props Hchild _ IH]; intros Hfree sel d fmt om st;
    [reflexivity|].
  cbn [forallb fst snd] in Hfree. apply andb_true_iff in Hfree as [Hkv Hfree].
  cbn [fold_left]. rewrite (visit_silent key child Hchild Hkv). apply IH, Hfree.
Qed.

Lemma walker_silent style : silent style.
Proof.
  induction style as [ | | b | z | s | props IH] using jsval_nested_ind.
  1-5: intros _; split; intros; reflexivity.
  intros Hfree. cbn [declarationFree] in Hfree.
  apply andb_true_iff in Hfree as [Hblock Hfree]. split.
  - intros sel d fmt om out c.
    rewrite compileRuleNode_cache_unfold,
      (collectDeclarations_allAbsent _ c Hblock).
    apply visits_silent; assumption.
  - intros name parent d fmt om c.
    rewrite compileAtRule_cache_unfold,
      (collectDeclarations_allAbsent _ c Hblock).
    rewrite (visits_silent props IH Hfree). reflexivity.
Qed.

End NothingToRender.

(** The style written without [$]: the properties stand directly under
    the selector. *)
Definition misplacedBlock : jsval :=
  JObject [("#app", JObject [("color", JStr "red"); ("margin", JNum 0)])].

(** X12. A tree without a declaration to render compiles to the empty
    string, in every format and with every exclusion list, and the cache
    is left as it was: no rule, no empty braces and no empty at-rule
    wrapper at any depth.  This holds of a style that is not an object, of
    an empty tree, and of properties written directly under a selector
    instead of under [$]. *)
Theorem compileStyle_nothing_to_render (style : jsval)
  (options : CompileOptionsInput) (cache : gmap string string) :
  declarationFree style = true ->
  compileStyle style options cache = ("", cache).
Proof.
  intros Hfree. unfold compileStyle. destruct (falsy style); [reflexivity|].
  destruct style as [ | | b | z | s | props]; try reflexivity.
  cbn [declarationFree] in Hfree. apply andb_true_iff in Hfree as [_ Hfree].
  change (fold_left _ props ([], cache))
    with (fold_left
            (visit "" 0 (default FormatDefault (format (normalizeOptions options)))
               (createOmitMatcher (omit (normalizeOptions options))))
            props ([], cache)).
  rewrite visits_silent; [reflexivity | | exact Hfree].
  apply Forall_forall. intros kv _. apply walker_silent.
Qed.

Lemma compileStyle_nothing_to_render_witness :
  declarationFree emptyRules = true /\
  declarationFree misplacedBlock = true /\
  compileStyle emptyRules prettyOptions ∅ = ("", ∅) /\
  compileStyle misplacedBlock OptionsUndefined ∅ = ("", ∅) /\
  compileStyle JNull OptionsUndefined ∅ = ("", ∅).
Proof.
  split; [reflexivity|]. split; [reflexivity|]. split; [|split].
  - apply compileStyle_nothing_to_render. reflexivity.
  - apply compileStyle_nothing_to_render. reflexivity.
  - apply compileStyle_nothing_to_render. reflexivity.
Defined.

(** ** The top level of a tree *)

Section TopLevel.

Lemma fold_left_invariant {A B : Type} (I : A -> Prop) (f : A -> B -> A)
  (l : list B) :
  Forall (fun x => forall a, I a -> I (f a x)) l ->
  forall a, I a -> I (fold_left f l a).
Proof.
  induction 1 as [|x l Hx _ IH]; intros a Ha; simpl; [exact Ha|].
  apply IH, Hx, Ha.
Qed.

Lemma compileRoot_withoutBlock props fmt om :
  CacheFree.compileRoot (JObject (withoutBlock props)) fmt om
  = CacheFree.compileRoot (JObject props) fmt om.
Proof. rewrite !compileRoot_unfold, visits_withoutBlock. reflexivity. Qed.

Lemma compileRoot_app props more fmt om :
  CacheFree.compileRoot (JObject (props ++ more)) fmt om
  = CacheFree.compileRoot (JObject props) fmt om
    +:+ CacheFree.compileRoot (JObject more) fmt om.
Proof.
  rewrite !compileRoot_unfold, fold_left_app, visits_append, join_app.
  reflexivity.
Qed.

End TopLevel.

(** X13. Declarations at the root of a tree are never rendered: the tree
    compiles to what it compiles to without its root-level [$] entry. *)
Theorem compileStyle_root_block_ignored (props : list (string * jsval))
  (options : CompileOptionsInput) (cache : gmap string string) :
  reachable cache ->
  fst (compileStyle (JObject props) options cache)
  = fst (compileStyle (JObject (withoutBlock props)) options cache).
Proof.
  intros Hc. rewrite !(proj1 (compileStyle_agrees _ _ _ Hc)).
  unfold CacheFree.compileStyle. symmetry. apply compileRoot_withoutBlock.
Qed.

Lemma compileStyle_root_block_ignored_witness :
  reachable ∅ /\
  fst (compileStyle
         (JObject [("$", JObject [("color", JStr "red")]);
                   ("a", JObject [("$", JObject [("color", JStr "blue")])])])
         OptionsUndefined ∅)
  = "a{color:blue;}" +:+ nl.
Proof.
  split; [apply reachable_empty|].
  rewrite (compileStyle_root_block_ignored _ OptionsUndefined ∅ reachable_empty).
  reflexivity.
Defined.

(** X14. The output follows the order of the top-level keys and each key
    contributes on its own: a tree whose keys are those of one tree
    followed by those of another compiles to the output of the first
    followed by the output of the second. *)
Theorem compileStyle_app (props more : list (string * jsval))
  (options : CompileOptionsInput) (cache : gmap string string) :
  reachable cache ->
  fst (compileStyle (JObject (props ++ more)) options cache)
  = fst (compileStyle (JObject props) options cache)
    +:+ fst (compileStyle (JObject more) options cache).
Proof.
  intros Hc. rewrite !(proj1 (compileStyle_agrees _ _ _ Hc)).
  unfold CacheFree.compileStyle. apply compileRoot_app.
Qed.

Lemma compileStyle_app_witness :
  reachable ∅ /\
  fst (compileStyle
         (JObject ([("#header", JObject [("$", JObject [("color", JStr "red")])])]
                   ++ [("#footer", JObject [("$", JObject [("color", JStr "blue")])])]))
         OptionsUndefined ∅)
  = ("#header{color:red;}" +:+ nl) +:+ ("#footer{color:blue;}" +:+ nl).
Proof.
  split; [apply reachable_empty|].
  rewrite (compileStyle_app _ _ OptionsUndefined ∅ reachable_empty).
  reflexivity.
Defined.

(** X15. [compileRuleNode] only appends to [out]: what was pushed before
    the call stays in place, what the call pushes does not depend on it,
    and the boolean it returns tells whether it pushed anything. *)
Theorem compileRuleNode_appends_only (selector : string) (style : jsval)
  (depth : nat) (fmt : PlumetFormat) (isOmitted : string -> bool)
  (out : list string) (cache : gmap string string) :
  reachable cache ->
  fst (compileRuleNode selector style depth fmt isOmitted out cache)
  = out ++ fst (compileRuleNode selector style depth fmt isOmitted [] cache)
  /\ (compileRuleNode_result selector style depth fmt isOmitted out cache = true
      <-> fst (compileRuleNode selector style depth fmt isOmitted [] cache) <> []).
Proof.
  intros Hc.
  assert (E : fst (compileRuleNode selector style depth fmt isOmitted out cache)
              = out ++ fst (compileRuleNode selector style depth fmt isOmitted
                              [] cache)).
  { rewrite !(proj1 (proj1 (walker_agrees style) _ _ _ _ _ _ Hc)).
    apply compileRuleNode_appends. }
  split; [exact E|].
  unfold compileRuleNode_result. rewrite E, length_app, Nat.ltb_lt.
  destruct (fst (compileRuleNode selector style depth fmt isOmitted [] cache));
    cbn [length]; split; intros H; try lia; congruence.
Qed.

Lemma compileRuleNode_appends_only_witness :
  reachable ∅ /\
  fst (compileRuleNode "#app" (JObject [("$", JObject [("color", JStr "red")])])
         0 FormatMinify (fun _ => false) ["/* kept */"] ∅)
  = ["/* kept */"; "#app"; "{"; "color"; ":"; "red"; ";"; "}"] /\
  compileRuleNode_result "#app" (JObject [("$", JObject [("color", JUndefined)])])
    0 FormatMinify (fun _ => false) ["/* kept */"] ∅ = false.
Proof.
  split; [apply reachable_empty|]. split.
  - rewrite (proj1 (compileRuleNode_appends_only "#app" _ 0 FormatMinify
                      (fun _ => false) ["/* kept */"] ∅ reachable_empty)).
    reflexivity.
  - reflexivity.
Defined.

(** ** The final newline *)

(** A text that is empty or ends with a line feed. *)
Definition newlineTerminated (s : string) : Prop :=
  s = "" \/ exists pre, s = pre +:+ nl.

Section FinalNewline.

Lemma newlineTerminated_append a b :
  newlineTerminated a -> newlineTerminated b -> newlineTerminated (a +:+ b).
Proof.
  intros Ha [-> | [pre ->]].
  - rewrite append_empty_r. exact Ha.
  - right. exists (a +:+ pre). rewrite append_assoc. reflexivity.
Qed.

Lemma newlineTerminated_line pre : newlineTerminated (pre +:+ nl).
Proof. right. exists pre. reflexivity. Qed.

Lemma join_snoc l x : join (l ++ [x]) = join l +:+ x.
Proof. rewrite join_app. cbn. rewrite append_empty_r. reflexivity. Qed.

Variable fmt : PlumetFormat.
Hypothesis not_minify : fmt <> FormatMinify.

Lemma newlineTerminated_writeRule selector declarations depth :
  newlineTerminated (join (writeRule [] selector declarations depth fmt)).
Proof.
  unfold writeRule. destruct fmt; try congruence; cbn [isPretty isDefault].
  - rewrite join_snoc. apply newlineTerminated_line.
  - rewrite join_app. cbn [join fold_right].
    rewrite append_empty_r, <- !append_assoc. apply newlineTerminated_line.
Qed.

Lemma newlineTerminated_wrapAtRule name body depth :
  newlineTerminated (wrapAtRule name body depth fmt).
Proof.
  unfold wrapAtRule. destruct (nonEmpty body); cbn [negb]; [|now left].
  destruct fmt; try congruence; cbn [isPretty isDefault];
    rewrite <- !append_assoc; apply newlineTerminated_line.
Qed.

Definition terminating (style : jsval) : Prop :=
  forall sel d om out,
    newlineTerminated (join out) ->
    newlineTerminated (join (CacheFree.compileRuleNode sel style d fmt om out)).

Lemma visit_terminating key child :
  terminating child ->
  forall sel d om out,
    newlineTerminated (join out) ->
    newlineTerminated (join (CacheFreeVisit.visit sel d fmt om out (key, child))).
Proof.
  intros Hchild sel d om out Hout. unfold CacheFreeVisit.visit.
  destruct (skippedKey key); [exact Hout|].
  destruct (notAnObject child) eqn:Hobj; [exact Hout|].
  destruct (isAtRuleKey key).
  - destruct (nonEmpty _); [|exact Hout].
    rewrite join_snoc. apply newlineTerminated_append; [exact Hout|].
    destruct (notAnObject_false _ Hobj) as [props ->].
    rewrite compileAtRule_unfold. apply newlineTerminated_wrapAtRule.
  - destruct (om _); [exact Hout | apply Hchild, Hout].
Qed.

Lemma walker_terminating style : terminating style.
Proof.
  induction style as [ | | b | z | s | props IH] using jsval_nested_ind.
  1-5: intros sel d om out Hout; exact Hout.
  intros sel d om out Hout. rewrite compileRuleNode_unfold.
  apply (fold_left_invariant (fun a => newlineTerminated (join a))).
  - eapply Forall_impl; [exact IH|].
    intros [key child] Hchild a. apply visit_terminating, Hchild.
  - unfold CacheFreeVisit.ownRule. cbn [get].
    destruct (CacheFree.collectDeclarations (lookup "$" props)); [exact Hout|].
    rewrite writeRule_app, join_app.
    apply newlineTerminated_append;
      [exact Hout | apply newlineTerminated_writeRule].
Qed.

Lemma compileRoot_terminating style om :
  newlineTerminated (CacheFree.compileRoot style fmt om).
Proof.
  unfold CacheFree.compileRoot. destruct (falsy style); [now left|].
  apply (fold_left_invariant (fun a => newlineTerminated (join a)));
    [|now left].
  apply Forall_forall. intros [key child] _ a.
  apply visit_terminating, walker_terminating.
Qed.

End FinalNewline.

(** The format [compileStyle] takes from its options. *)
Definition formatOf (options : CompileOptionsInput) : PlumetFormat :=
  default FormatDefault (format (normalizeOptions options)).

(** X16. In the default and the pretty format, an output that is not empty
    ends with a line feed. *)
Theorem compileStyle_final_newline (style : jsval)
  (options : CompileOptionsInput) (cache : gmap string string) :
  reachable cache ->
  formatOf options <> FormatMinify ->
  newlineTerminated (fst (compileStyle style options cache)).
Proof.
  intros Hc Hfmt. rewrite (proj1 (compileStyle_agrees _ _ _ Hc)).
  apply compileRoot_terminating, Hfmt.
Qed.

Lemma compileStyle_final_newline_witness :
  reachable ∅ /\ formatOf prettyOptions <> FormatMinify /\
  newlineTerminated (fst (compileStyle prettyNested prettyOptions ∅)).
Proof.
  split; [apply reachable_empty|]. split; [discriminate|].
  apply compileStyle_final_newline; [apply reachable_empty | discriminate].
Defined.

(** * Canvases *)

(** A canvas ([PlumetCanvas]) and the global configuration, as
    [compileCanvas] reads them: [config] may be missing ([canvas.config?.]),
    and so may the exclusion list, the global configuration and its
    format. *)
Module Canvas.

Record PlumetConfig : Type := {
  output : string;
  omit : option (list string)
}.

Record PlumetGlobalConfig : Type := {
  format : option PlumetFormat
}.

Record PlumetCanvas : Type := {
  config : option PlumetConfig;
  style : jsval
}.

End Canvas.

(** [canvas.config?.omit]. *)
Definition canvasOmit (canvas : Canvas.PlumetCanvas) : option (list string) :=
  match Canvas.config canvas with
  | Some c => Canvas.omit c
  | None => None
  end.

(** [globalConfig?.format]. *)
Definition globalFormat (globalConfig : option Canvas.PlumetGlobalConfig)
  : option PlumetFormat :=
  match globalConfig with
  | Some g => Canvas.format g
  | None => None
  end.

Definition compileCanvas (canvas : Canvas.PlumetCanvas)
  (globalConfig : option Canvas.PlumetGlobalConfig)
  (cache : gmap string string) : string * gmap string string :=
  let omit := canvasOmit canvas in
  let format := globalFormat globalConfig in
  let options :=
    match omit, format with
    | Some o, Some f => OptionsObject {| omit := Some o; format := Some f |}
    | Some o, None => OptionsArray o
    | None, Some f => OptionsObject {| omit := None; format := Some f |}
    | None, None => OptionsUndefined
    end in
  compileStyle (Canvas.style canvas) options cache.

(** [result[key] = css] on the plain object [result]: an own property is
    defined, except under the name [__proto__], where the assignment runs
    the setter inherited from [Object.prototype]; the setter ignores a
    value that is neither an object nor [null], here a string, and nothing
    is defined. *)
Definition assign (result : gmap string string) (key css : string)
  : gmap string string :=
  if String.eqb key "__proto__" then result else <[key := css]> result.

(** [compileCanvasMap]: the map is the list of its entries in key order, a
    falsy entry being [None]; the result object is the finite map of its
    own properties. *)
Definition compileCanvasMap
  (canvasMap : list (string * option Canvas.PlumetCanvas))
  (globalConfig : option Canvas.PlumetGlobalConfig)
  (cache : gmap string string) : gmap string string * gmap string string :=
  fold_left
    (fun (st : gmap string string * gmap string string)
         (entry : string * option Canvas.PlumetCanvas) =>
       let '(result, cache) := st in
       let '(key, canvas) := entry in
       match canvas with
       | None => st
       | Some canvas =>
           let '(css, cache) := compileCanvas canvas globalConfig cache in
           (assign result key css, cache)
       end)
    canvasMap (∅, cache).

Section CanvasFacts.

Lemma compileCanvas_options canvas globalConfig cache :
  compileCanvas canvas globalConfig cache
  = compileStyle (Canvas.style canvas)
      (OptionsObject {| omit := canvasOmit canvas;
                        format := globalFormat globalConfig |})
      cache.
Proof.
  unfold compileCanvas.
  destruct (canvasOmit canvas), (globalFormat globalConfig); reflexivity.
Qed.

Lemma compileCanvas_agrees canvas globalConfig cache :
  reachable cache ->
  fst (compileCanvas canvas globalConfig cache)
  = fst (compileCanvas canvas globalConfig ∅) /\
  reachable (snd (compileCanvas canvas globalConfig cache)).
Proof.
  intros Hc. rewrite !compileCanvas_options.
  destruct (compileStyle_agrees (Canvas.style canvas)
              (OptionsObject {| omit := canvasOmit canvas;
                                format := globalFormat globalConfig |})
              cache Hc) as [E1 E2].
  split; [|exact E2].
  rewrite E1. symmetry. apply compileStyle_agrees, reachable_empty.
Qed.

(** The loop of [compileCanvasMap] from any result object and cache. *)
Lemma compileCanvasMap_from globalConfig canvasMap :
  NoDup (map fst canvasMap) ->
  forall result cache,
    reachable cache ->
    let final :=
      fst (fold_left
             (fun (st : gmap string string * gmap string string)
                  (entry : string * option Canvas.PlumetCanvas) =>
                let '(result, cache) := st in
                let '(key, canvas) := entry in
                match canvas with
                | None => st
                | Some canvas =>
                    let '(css, cache) :=
                      compileCanvas canvas globalConfig cache in
                    (assign result key css, cache)
                end)
             canvasMap (result, cache)) in
    (forall key canvas,
       key <> "__proto__" ->
       In (key, Some canvas) canvasMap ->
       final !! key = Some (fst (compileCanvas canvas globalConfig ∅))) /\
    (forall key,
       (forall canvas, ~ In (key, Some canvas) canvasMap) ->
       final !! key = result !! key) /\
    final !! "__proto__" = result !! "__proto__".
Proof.
  induction canvasMap as [|[k oc] l IH]; intros Hdup result cache Hc.
  - split; [intros key canvas _ [] | split; reflexivity].
  - cbn [map fst] in Hdup. apply NoDup_cons in Hdup as [Hk Hdup].
    cbn [fold_left].
    assert (Hfresh : forall canvas, ~ In (k, Some canvas) l).
    { intros canvas Hin. apply Hk. apply list_elem_of_In.
      apply (in_map fst) in Hin. exact Hin. }
    destruct oc as [canvas|].
    + destruct (compileCanvas_agrees canvas globalConfig cache Hc) as [E1 E2].
      destruct (compileCanvas canvas globalConfig cache) as [css cache'].
      cbn [fst snd] in E1, E2.
      destruct (IH Hdup (assign result k css) cache' E2)
        as (Hin & Hout & Hproto).
      split; [|split].
      * intros key canvas' Hkey [Heq | Hl].
        -- injection Heq as <- <-. rewrite (Hout k Hfresh). unfold assign.
           apply String.eqb_neq in Hkey. rewrite Hkey, lookup_insert_eq.
           congruence.
        -- apply Hin; [exact Hkey | exact Hl].
      * intros key Hnone. rewrite Hout.
        -- unfold assign. destruct (String.eqb k "__proto__"); [reflexivity|].
           apply lookup_insert_ne. intros <-.
           apply (Hnone canvas). left. reflexivity.
        -- intros canvas' Hl. apply (Hnone canvas'). right. exact Hl.
      * rewrite Hproto. unfold assign.
        destruct (String.eqb k "__proto__") eqn:E; [reflexivity|].
        apply lookup_insert_ne. apply String.eqb_neq, E.
    + destruct (IH Hdup result cache Hc) as (Hin & Hout & Hproto).
      split; [|split].
      * intros key canvas' Hkey [Heq | Hl];
          [discriminate Heq | apply Hin; [exact Hkey | exact Hl]].
      * intros key Hnone. apply Hout.
        intros canvas' Hl. apply (Hnone canvas'). right. exact Hl.
      * exact Hproto.
Qed.

End CanvasFacts.

(** X17. [compileCanvas] hands the exclusion list of the canvas and the
    format of the global configuration to [compileStyle], each whether or
    not the other is present; without either it compiles with no
    exclusion in the default format. *)
Theorem compileCanvas_uses_omit_and_format (canvas : Canvas.PlumetCanvas)
  (globalConfig : option Canvas.PlumetGlobalConfig)
  (cache : gmap string string) :
  reachable cache ->
  fst (compileCanvas canvas globalConfig cache)
  = CacheFree.compileRoot (Canvas.style canvas)
      (default FormatDefault (globalFormat globalConfig))
      (createOmitMatcher (canvasOmit canvas)).
Proof.
  intros Hc. rewrite compileCanvas_options.
  rewrite (proj1 (compileStyle_agrees _ _ _ Hc)). reflexivity.
Qed.

(** The canvas of the test "compileCanvas uses omit from config". *)
Definition skipCanvas : Canvas.PlumetCanvas :=
  {| Canvas.config :=
       Some {| Canvas.output := "./dist/app.css";
               Canvas.omit := Some ["#app .skip"] |};
     Canvas.style :=
       JObject
         [("#app",
           JObject [("$", JObject [("color", JStr "black")]);
                    (".keep", JObject [("$", JObject [("color", JStr "blue")])]);
                    (".skip", JObject [("$", JObject [("color", JStr "red")])])])] |}.

Lemma compileCanvas_uses_omit_and_format_witness :
  reachable ∅ /\
  fst (compileCanvas skipCanvas (Some {| Canvas.format := Some FormatMinify |}) ∅)
  = "#app{color:black;}#app .keep{color:blue;}".
Proof.
  split; [apply reachable_empty|].
  rewrite (compileCanvas_uses_omit_and_format skipCanvas _ ∅ reachable_empty).
  vm_compute. reflexivity.
Defined.

(** X18. [compileCanvasMap] gives, under the name of each canvas, what
    [compileCanvas] gives for that canvas alone, and nothing under any
    other name: names with a falsy entry are left out, and the canvases
    compiled before do not change the result of a later one.  The one
    name that is never defined in the result is [__proto__]: the text of
    a canvas of that name is dropped. *)
Theorem compileCanvasMap_entries
  (canvasMap : list (string * option Canvas.PlumetCanvas))
  (globalConfig : option Canvas.PlumetGlobalConfig)
  (cache : gmap string string) :
  NoDup (map fst canvasMap) ->
  reachable cache ->
  (forall key canvas,
     key <> "__proto__" ->
     In (key, Some canvas) canvasMap ->
     fst (compileCanvasMap canvasMap globalConfig cache) !! key
     = Some (fst (compileCanvas canvas globalConfig cache))) /\
  (forall key,
     (forall canvas, ~ In (key, Some canvas) canvasMap) ->
     fst (compileCanvasMap canvasMap globalConfig cache) !! key = None) /\
  fst (compileCanvasMap canvasMap globalConfig cache) !! "__proto__" = None.
Proof.
  intros Hdup Hc.
  destruct (compileCanvasMap_from globalConfig canvasMap Hdup ∅ cache Hc)
    as (Hin & Hout & Hproto).
  split; [|split].
  - intros key canvas Hkey Hk.
    rewrite (proj1 (compileCanvas_agrees canvas globalConfig cache Hc)).
    apply Hin; [exact Hkey | exact Hk].
  - intros key Hnone. unfold compileCanvasMap.
    rewrite (Hout key Hnone). apply lookup_empty.
  - unfold compileCanvasMap. rewrite Hproto. apply lookup_empty.
Qed.

Definition headerCanvas : Canvas.PlumetCanvas :=
  {| Canvas.config :=
       Some {| Canvas.output := "./dist/header.css"; Canvas.omit := None |};
     Canvas.style :=
       JObject [("#header", JObject [("$", JObject [("color", JStr "red")])])] |}.

Definition footerCanvas : Canvas.PlumetCanvas :=
  {| Canvas.config :=
       Some {| Canvas.output := "./dist/footer.css"; Canvas.omit := None |};
     Canvas.style :=
       JObject [("#footer", JObject [("$", JObject [("color", JStr "blue")])])] |}.

Lemma compileCanvasMap_entries_witness :
  let canvases :=
    [("header", Some headerCanvas); ("draft", None);
     ("__proto__", Some headerCanvas); ("footer", Some footerCanvas)] in
  NoDup (map fst canvases) /\ reachable ∅ /\
  fst (compileCanvasMap canvases None ∅) !! "footer"
  = Some ("#footer{color:blue;}" +:+ nl) /\
  fst (compileCanvasMap canvases None ∅) !! "draft" = None /\
  fst (compileCanvasMap canvases None ∅) !! "__proto__" = None.
Proof.
  intros canvases.
  assert (Hdup : NoDup (map fst canvases)).
  { apply (bool_decide_unpack _). vm_compute. exact I. }
  split; [exact Hdup|]. split; [apply reachable_empty|].
  destruct (compileCanvasMap_entries canvases None ∅ Hdup reachable_empty)
    as (Hin & Hout & Hproto).
  split; [|split].
  - rewrite (Hin "footer" footerCanvas); [reflexivity | discriminate |].
    right. right. right. left. reflexivity.
  - apply Hout. intros canvas [H | [H | [H | [H | []]]]]; discriminate H.
  - exact Hproto.
Defined.

(** * The command line (cli.ts) *)

(** [keys.includes(current)]. *)
Definition includes (keys : list string) (current : string) : bool :=
  existsb (String.eqb current) keys.

(** [takeFlag(argv, keys)]: the index [i] runs over the arguments that
    have a successor; [None] is [undefined]. *)
Fixpoint takeFlag (argv keys : list string) : option string :=
  match argv with
  | current :: rest =>
      match rest with
      | next :: _ =>
          if nonEmpty current && includes keys current && nonEmpty next
          then Some next
          else takeFlag rest keys
      | [] => None
      end
  | [] => None
  end.

Definition hasFlag (argv keys : list string) : bool :=
  existsb (fun arg => includes keys arg) argv.

(** [typeof v === "string"]. *)
Definition isString (v : jsval) : bool :=
  match v with
  | JStr _ => true
  | _ => false
  end.

(** [Object.values(v)] for a value that is an object. *)
Definition objectValues (v : jsval) : list jsval :=
  match v with
  | JObject props => map snd props
  | _ => []
  end.

Definition isCanvas (value : jsval) : bool :=
  if notAnObject value then false
  else
    let config := get value "config" in
    let style := get value "style" in
    negb (falsy config) && isString (get config "output")
    && negb (falsy style) && typeofObject style.

Definition isCanvasMap (value : jsval) : bool :=
  if notAnObject value then false
  else forallb isCanvas (objectValues value).

(** What [normalizePlumetData] returns when it does not return
    [undefined]: [config] is [None] when the property is left out of the
    result. *)
Record NormalizedData : Type := {
  dataCanvas : jsval;
  dataConfig : option jsval
}.

Definition normalizePlumetData (value : jsval) : option NormalizedData :=
  if notAnObject value then None
  else
    let canvas := get value "canvas" in
    if negb (falsy canvas) && typeofObject canvas then
      match get value "config" with
      | JUndefined => Some {| dataCanvas := canvas; dataConfig := None |}
      | config => Some {| dataCanvas := canvas; dataConfig := Some config |}
      end
    else if isCanvasMap value
         then Some {| dataCanvas := value; dataConfig := None |}
         else None.

Section CliFacts.

(** A flag at some position followed by a value [takeFlag] accepts. *)
Definition accepted (keys : list string) (flag value : string) : bool :=
  nonEmpty flag && includes keys flag && nonEmpty value.

Lemma takeFlag_some argv keys value :
  takeFlag argv keys = Some value ->
  exists before flag after,
    argv = before ++ flag :: value :: after /\
    accepted keys flag value = true /\
    takeFlag (before ++ [flag]) keys = None.
Proof.
  induction argv as [|current rest IH]; [discriminate|].
  cbn [takeFlag]. destruct rest as [|next rest']; [discriminate|].
  destruct (nonEmpty current && includes keys current && nonEmpty next) eqn:E.
  - intros [= <-]. exists [], current, rest'. auto.
  - intros H. destruct (IH H) as (before & flag & after & Heq & Hacc & Hnone).
    exists (current :: before), flag, after. split; [|split].
    + cbn. rewrite Heq. reflexivity.
    + exact Hacc.
    + destruct before as [|b before']; cbn [app] in Heq;
        injection Heq as Hnext Hrest; subst next.
      * cbn. rewrite E. reflexivity.
      * cbn [app takeFlag]. rewrite E. exact Hnone.
Qed.

Lemma takeFlag_none argv keys :
  takeFlag argv keys = None <->
  forall before flag value after,
    argv = before ++ flag :: value :: after -> accepted keys flag value = false.
Proof.
  induction argv as [|current rest IH].
  - split; [|reflexivity]. intros _ [|? ?] ? ? ? H; discriminate H.
  - cbn [takeFlag]. destruct rest as [|next rest'].
    + split; [|reflexivity].
      intros _ [|? [|? ?]] ? ? ? H; discriminate H.
    + destruct (nonEmpty current && includes keys current && nonEmpty next)
        eqn:E.
      * split; [discriminate|]. intros H.
        specialize (H [] current next rest' eq_refl).
        unfold accepted in H. congruence.
      * rewrite IH. split.
        -- intros H [|b before] flag value after Heq.
           ++ cbn in Heq. injection Heq as <- <- _. exact E.
           ++ cbn in Heq. injection Heq as _ Heq. apply (H before _ _ after Heq).
        -- intros H before flag value after Heq.
           apply (H (current :: before) flag value after).
           cbn. rewrite Heq. reflexivity.
Qed.

Lemma includes_In keys arg : includes keys arg = true <-> In arg keys.
Proof.
  unfold includes. rewrite existsb_exists. split.
  - intros (k & Hk & E). apply String.eqb_eq in E. subst. exact Hk.
  - intros H. exists arg. split; [exact H | apply String.eqb_refl].
Qed.

Lemma get_string_object v key s :
  get v key = JStr s -> exists props, v = JObject props.
Proof. destruct v; try discriminate. eexists. reflexivity. Qed.

End CliFacts.

(** X19. When [takeFlag] returns a value, that value is not empty and
    stands right after a flag of [keys], and no flag before it is followed
    by a value ([takeFlag] takes the first); it returns nothing exactly
    when no flag of [keys] is followed by a non-empty argument, so a flag
    in the last position has no value.  A value it returns belongs to a
    flag [hasFlag] sees. *)
Theorem takeFlag_first_value (argv keys : list string) :
  (forall value,
     takeFlag argv keys = Some value ->
     nonEmpty value = true /\
     hasFlag argv keys = true /\
     exists before flag after,
       argv = before ++ flag :: value :: after /\
       In flag keys /\
       takeFlag (before ++ [flag]) keys = None) /\
  (takeFlag argv keys = None <->
   forall before flag value after,
     argv = before ++ flag :: value :: after ->
     In flag keys -> nonEmpty flag = true -> nonEmpty value = false).
Proof.
  split.
  - intros value H.
    destruct (takeFlag_some argv keys value H)
      as (before & flag & after & -> & Hacc & Hnone).
    unfold accepted in Hacc.
    apply andb_true_iff in Hacc as [Hacc Hvalue].
    apply andb_true_iff in Hacc as [_ Hflag].
    split; [exact Hvalue|]. split.
    + unfold hasFlag. rewrite existsb_app. cbn [existsb].
      rewrite Hflag, orb_true_r. reflexivity.
    + exists before, flag, after.
      split; [reflexivity|]. split; [apply includes_In, Hflag | exact Hnone].
  - rewrite takeFlag_none. unfold accepted. split.
    + intros H before flag value after Heq Hin Hne.
      specialize (H before flag value after Heq).
      apply includes_In in Hin. rewrite Hne, Hin in H. exact H.
    + intros H before flag value after Heq.
      destruct (nonEmpty flag) eqn:Hne; [|reflexivity].
      destruct (includes keys flag) eqn:Hin; [|reflexivity].
      apply includes_In in Hin. apply (H before flag value after Heq Hin Hne).
Qed.

Lemma takeFlag_first_value_witness :
  takeFlag ["build"; "--entry"; ""; "-e"; "site.ts"; "--entry"] ["--entry"; "-e"]
  = Some "site.ts" /\
  hasFlag ["build"; "--entry"; ""; "-e"; "site.ts"; "--entry"] ["--entry"; "-e"]
  = true /\
  takeFlag ["build"; "--entry"] ["--entry"; "-e"] = None.
Proof.
  split; [reflexivity|]. split; [|reflexivity].
  apply (proj1 (takeFlag_first_value
                  ["build"; "--entry"; ""; "-e"; "site.ts"; "--entry"]
                  ["--entry"; "-e"]) "site.ts").
  reflexivity.
Defined.

(** X20. [isCanvas] accepts exactly the objects whose [config] is an
    object with a string under [output] and whose [style] is an object:
    what it accepts has the output path and the style tree that the build
    step reads. *)
Theorem isCanvas_shape (value : jsval) :
  isCanvas value = true <->
  exists props configProps output styleProps,
    value = JObject props /\
    lookup "config" props = JObject configProps /\
    lookup "output" configProps = JStr output /\
    lookup "style" props = JObject styleProps.
Proof.
  unfold isCanvas. split.
  - destruct (notAnObject value) eqn:Hobj; [discriminate|].
    destruct (notAnObject_false _ Hobj) as [props ->]. cbn [get].
    intros H. apply andb_true_iff in H as [H Hstyle].
    apply andb_true_iff in H as [H Hfalsy].
    apply andb_true_iff in H as [_ Hout].
    destruct (get (lookup "config" props) "output") as [ | | | | output | ]
      eqn:Eout; try discriminate.
    destruct (get_string_object _ _ _ Eout) as [configProps Econfig].
    rewrite Econfig in Eout. cbn [get] in Eout.
    destruct (lookup "style" props) as [ | | | | | styleProps] eqn:Estyle;
      try discriminate.
    exists props, configProps, output, styleProps. auto.
  - intros (props & configProps & output & styleProps & -> & Hc & Ho & Hs).
    cbn [get notAnObject falsy typeofObject negb orb].
    rewrite Hc, Hs. cbn [get falsy typeofObject negb andb]. rewrite Ho.
    reflexivity.
Qed.

(** What [normalizePlumetData] may return for a value.  The value is an
    object, and either it has an object under [canvas], which is then the
    canvas map of the result, with the [config] of the value as the
    configuration, left out exactly when it is [undefined]; or it has no
    object under [canvas], every one of its entries is a canvas, the value
    itself is the canvas map of the result, and the result has no
    configuration. *)
Definition normalized (value : jsval) (data : NormalizedData) : Prop :=
  exists props,
    value = JObject props /\
    ((exists canvasProps,
        lookup "canvas" props = JObject canvasProps /\
        dataCanvas data = JObject canvasProps /\
        (lookup "config" props = JUndefined -> dataConfig data = None) /\
        (lookup "config" props <> JUndefined ->
         dataConfig data = Some (lookup "config" props)))
     \/
     (notAnObject (lookup "canvas" props) = true /\
      Forall (fun entry => isCanvas (snd entry) = true) props /\
      dataCanvas data = value /\
      dataConfig data = None)).

Lemma isCanvasMap_entries props :
  isCanvasMap (JObject props) = true
  <-> Forall (fun entry : string * jsval => isCanvas (snd entry) = true) props.
Proof.
  unfold isCanvasMap. cbn [notAnObject falsy typeofObject negb orb objectValues].
  rewrite forallb_forall, Forall_forall. split.
  - intros H entry Hin. apply H, in_map. apply list_elem_of_In, Hin.
  - intros H v Hin. apply in_map_iff in Hin as (entry & <- & Hin).
    apply H, list_elem_of_In, Hin.
Qed.

(** X21. [normalizePlumetData] returns a result exactly as [normalized]
    says: for an object with an object under [canvas], that object with the
    configuration of the value, left out exactly when it is [undefined];
    for any other object all of whose entries are canvases, the value
    itself with no configuration; and [undefined] for everything else.
    Every value that [isCanvasMap] accepts, the empty object among them,
    is taken. *)
Theorem normalizePlumetData_canvas (value : jsval) :
  (forall data, normalizePlumetData value = Some data <-> normalized value data) /\
  (isCanvasMap value = true ->
   exists data, normalizePlumetData value = Some data).
Proof.
  unfold normalizePlumetData, normalized. split.
  - intros data. split.
    + destruct (notAnObject value) eqn:Hobj; [discriminate|].
      destruct (notAnObject_false _ Hobj) as [props ->]. cbn [get].
      intros H. exists props. split; [reflexivity|].
      destruct (notAnObject (lookup "canvas" props)) eqn:Hcanvas.
      * right. unfold notAnObject in Hcanvas.
        replace (negb (falsy (lookup "canvas" props))
                 && typeofObject (lookup "canvas" props)) with false in H
          by (destruct (falsy _), (typeofObject _); try reflexivity;
              discriminate Hcanvas).
        destruct (isCanvasMap (JObject props)) eqn:Hmap; [|discriminate].
        injection H as <-. cbn [dataCanvas dataConfig].
        split; [reflexivity|]. split; [apply isCanvasMap_entries, Hmap|].
        split; reflexivity.
      * left. destruct (notAnObject_false _ Hcanvas) as [canvasProps Hc].
        rewrite Hc in H. cbn [falsy typeofObject negb andb] in H.
        exists canvasProps. split; [exact Hc|].
        destruct (lookup "config" props) eqn:Hconfig; injection H as <-;
          cbn [dataCanvas dataConfig];
          (split; [reflexivity|]); split; congruence.
    + intros (props & -> & [(canvasProps & Hc & Hcanvas & Hnone & Hsome)
                           | (Hc & Hentries & Hcanvas & Hconfig)]);
        cbn [notAnObject falsy typeofObject negb orb get];
        destruct data as [canvas config]; cbn [dataCanvas dataConfig] in *.
      * rewrite Hc. cbn [falsy typeofObject negb andb]. subst canvas.
        destruct (lookup "config" props) eqn:Hconfig;
          try (rewrite Hsome by discriminate; reflexivity).
        rewrite Hnone by reflexivity. reflexivity.
      * unfold notAnObject in Hc.
        replace (negb (falsy (lookup "canvas" props))
                 && typeofObject (lookup "canvas" props)) with false
          by (destruct (falsy _), (typeofObject _); try reflexivity;
              discriminate Hc).
        rewrite (proj2 (isCanvasMap_entries props) Hentries).
        subst canvas config. reflexivity.
  - intros Hmap. pose proof Hmap as Hshape. unfold isCanvasMap in Hshape.
    destruct (notAnObject value) eqn:Hobj; [discriminate|].
    destruct (negb (falsy (get value "canvas"))
              && typeofObject (get value "canvas")).
    + destruct (get value "config"); eexists; reflexivity.
    + rewrite Hmap. eexists. reflexivity.
Qed.

(** A data object with a canvas map and a configuration, and a bare canvas
    map with one canvas. *)
Definition plumetData : jsval :=
  JObject [("canvas", JObject []);
           ("config", JObject [("format", JStr "minify")])].

Definition bareCanvasMap : jsval :=
  JObject [("app", JObject [("config", JObject [("output", JStr "./app.css")]);
                            ("style", JObject [])])].

Lemma normalizePlumetData_canvas_witness :
  normalizePlumetData plumetData
  = Some {| dataCanvas := JObject [];
            dataConfig := Some (JObject [("format", JStr "minify")]) |} /\
  normalized bareCanvasMap
    {| dataCanvas := bareCanvasMap; dataConfig := None |} /\
  isCanvasMap (JObject []) = true /\
  exists data, normalizePlumetData (JObject []) = Some data.
Proof.
  split; [|split; [|split; [reflexivity|]]].
  - apply (proj1 (normalizePlumetData_canvas plumetData)).
    exists [("canvas", JObject []);
            ("config", JObject [("format", JStr "minify")])].
    split; [reflexivity|]. left. exists [].
    split; [reflexivity|]. split; [reflexivity|].
    split; [discriminate | reflexivity].
  - apply (proj1 (normalizePlumetData_canvas bareCanvasMap)). reflexivity.
  - apply (proj2 (normalizePlumetData_canvas (JObject []))). reflexivity.
Defined.

Lemma isCanvas_shape_witness :
  isCanvas
    (JObject [("config", JObject [("output", JStr "./dist/app.css")]);
              ("style", JObject [])]) = true /\
  isCanvas (JObject [("config", JObject [("output", JNum 3)]);
                     ("style", JObject [])]) = false.
Proof.
  split; [|reflexivity].
  apply (proj2 (isCanvas_shape _)).
  exists [("config", JObject [("output", JStr "./dist/app.css")]);
          ("style", JObject [])],
         [("output", JStr "./dist/app.css")], "./dist/app.css", [].
  repeat split; reflexivity.
Defined.

(** * Nested keys and their flat form *)

(** [key.charCodeAt(0) === 58]: a key that is appended to the parent with
    no space. *)
Definition isPseudoKey (key : string) : bool :=
  codeIs (charCodeAt key 0) 58%Z.

Section NestingFacts.

Lemma ampFree_indexFrom key :
  ampFree key = true -> forall i from, indexFrom key "&" i from = (-1)%Z.
Proof.
  induction key as [|c key IH]; intros H i from; [reflexivity|].
  cbn [ampFree] in H. apply andb_true_iff in H as [Hc H].
  apply negb_true_iff in Hc. cbn [indexFrom].
  rewrite Hc, andb_false_r. apply IH, H.
Qed.

Lemma resolveSelector_plain parent key :
  ampFree key = true ->
  resolveSelector parent key
  = if isPseudoKey key then parent +:+ key
    else if nonEmpty parent then parent +:+ " " +:+ key
    else key.
Proof.
  intros H. unfold resolveSelector, indexOf, isPseudoKey.
  rewrite (ampFree_indexFrom key H). reflexivity.
Qed.

Lemma isPseudoKey_append a b :
  nonEmpty a = true -> isPseudoKey (a +:+ b) = isPseudoKey a.
Proof. destruct a; [discriminate | reflexivity]. Qed.

End NestingFacts.

(** The flat form of a key [b] nested under a key [a]. *)
Definition flatKey (a b : string) : string :=
  a +:+ (if isPseudoKey b then "" else " ") +:+ b.

Lemma resolveSelector_flatKey (parent a b : string) :
  ampFree a = true -> ampFree b = true -> nonEmpty a = true ->
  resolveSelector (resolveSelector parent a) b
  = resolveSelector parent (flatKey a b).
Proof.
  intros Ha Hb Hne. unfold flatKey.
  assert (Hflat : ampFree (a +:+ (if isPseudoKey b then "" else " ") +:+ b)
                  = true).
  { rewrite !ampFree_append, Ha, Hb. destruct (isPseudoKey b); reflexivity. }
  rewrite (resolveSelector_plain parent a Ha).
  rewrite (resolveSelector_plain parent _ Hflat).
  rewrite (isPseudoKey_append a _ Hne).
  destruct (isPseudoKey a).
  - rewrite (resolveSelector_plain _ b Hb), nonEmpty_append, Hne, orb_true_r.
    destruct (isPseudoKey b); rewrite ?append_assoc; reflexivity.
  - destruct (nonEmpty parent) eqn:Hp.
    + rewrite (resolveSelector_plain _ b Hb), nonEmpty_append, Hp.
      destruct (isPseudoKey b); cbn [orb]; rewrite ?append_assoc;
        reflexivity.
    + rewrite (resolveSelector_plain _ b Hb), Hne.
      destruct (isPseudoKey b); reflexivity.
Qed.

(** X22. Nesting composes: for keys without parent reference, resolving
    [b] under the selector resolved for [a] gives what resolving the flat
    key does, [a] and [b] joined by a space, or by nothing when [b] is a
    pseudo key. *)
Theorem resolveSelector_nested (parent a b : string) :
  ampFree a = true -> ampFree b = true -> nonEmpty a = true ->
  resolveSelector (resolveSelector parent a) b
  = resolveSelector parent (a +:+ (if isPseudoKey b then "" else " ") +:+ b).
Proof. apply resolveSelector_flatKey. Qed.

Lemma resolveSelector_nested_witness :
  resolveSelector (resolveSelector "#app" ".sections") "a"
  = resolveSelector "#app" ".sections a" /\
  resolveSelector (resolveSelector "#app" "a") ":hover"
  = resolveSelector "#app" "a:hover".
Proof.
  split.
  - apply (resolveSelector_nested "#app" ".sections" "a"); reflexivity.
  - apply (resolveSelector_nested "#app" "a" ":hover"); reflexivity.
Defined.

Section Flattening.

Lemma skippedKey_flatKey a b :
  nonEmpty a = true -> nonEmpty b = true -> skippedKey (flatKey a b) = false.
Proof.
  intros Ha Hb. unfold skippedKey, flatKey.
  destruct a as [|x a]; [discriminate|]. cbn [String.append nonEmpty negb orb].
  apply String.eqb_neq. intros H. injection H as _ H.
  apply (f_equal nonEmpty) in H. rewrite !nonEmpty_append, Hb in H.
  rewrite !orb_true_r in H. discriminate H.
Qed.

Lemma isAtRuleKey_flatKey a b :
  nonEmpty a = true -> isAtRuleKey (flatKey a b) = isAtRuleKey a.
Proof. destruct a; [discriminate | reflexivity]. Qed.

Lemma compileRoot_flatKey a b child fmt om :
  ampFree a = true -> ampFree b = true ->
  skippedKey a = false -> skippedKey b = false ->
  isAtRuleKey a = false -> isAtRuleKey b = false ->
  om (resolveSelector "" a) = false ->
  CacheFree.compileRoot (JObject [(a, JObject [(b, child)])]) fmt om
  = CacheFree.compileRoot (JObject [(flatKey a b, child)]) fmt om.
Proof.
  intros Ha Hb Hska Hskb Hata Hatb Hom.
  assert (Hnea : nonEmpty a = true).
  { apply orb_false_iff in Hska as [H _]. now apply negb_false_iff in H. }
  assert (Hneb : nonEmpty b = true).
  { apply orb_false_iff in Hskb as [H _]. now apply negb_false_iff in H. }
  assert (Hblock : String.eqb b "$" = false).
  { apply orb_false_iff in Hskb as [_ H]. exact H. }
  rewrite !compileRoot_unfold. cbn [fold_left]. f_equal.
  unfold CacheFreeVisit.visit.
  rewrite Hska, Hata, Hom, (skippedKey_flatKey a b Hnea Hneb),
    (isAtRuleKey_flatKey a b Hnea), Hata.
  cbn [notAnObject falsy typeofObject negb orb].
  rewrite compileRuleNode_unfold. unfold CacheFreeVisit.ownRule.
  cbn [get lookup]. rewrite Hblock. cbn [fold_left].
  unfold CacheFreeVisit.visit. rewrite Hskb, Hatb.
  rewrite (resolveSelector_flatKey "" a b Ha Hb Hnea). reflexivity.
Qed.

End Flattening.

(** X23. Nesting is flattening: a rule nested under a selector key that
    has nothing else below it compiles, in every format, to what the same
    rule compiles to under the flat key, provided the keys hold no parent
    reference and the outer selector is not excluded. *)
Theorem nested_rule_is_flat_rule (a b : string) (child : jsval)
  (options : CompileOptionsInput) (cache : gmap string string) :
  reachable cache ->
  ampFree a = true -> ampFree b = true ->
  skippedKey a = false -> skippedKey b = false ->
  isAtRuleKey a = false -> isAtRuleKey b = false ->
  matcherOf options (resolveSelector "" a) = false ->
  fst (compileStyle (JObject [(a, JObject [(b, child)])]) options cache)
  = fst (compileStyle (JObject [(flatKey a b, child)]) options cache).
Proof.
  intros Hc Ha Hb Hska Hskb Hata Hatb Hom.
  rewrite !(proj1 (compileStyle_agrees _ _ _ Hc)).
  unfold CacheFree.compileStyle. apply compileRoot_flatKey; assumption.
Qed.

Lemma nested_rule_is_flat_rule_witness :
  let rule := JObject [("$", JObject [("color", JStr "blue")])] in
  reachable ∅ /\
  fst (compileStyle (JObject [("#app", JObject [("a", rule)])]) prettyOptions ∅)
  = fst (compileStyle (JObject [("#app a", rule)]) prettyOptions ∅) /\
  fst (compileStyle (JObject [("a", JObject [(":hover", rule)])]) prettyOptions ∅)
  = fst (compileStyle (JObject [("a:hover", rule)]) prettyOptions ∅).
Proof.
  intros rule. split; [apply reachable_empty|]. split.
  - apply (nested_rule_is_flat_rule "#app" "a" rule prettyOptions ∅);
      solve [apply reachable_empty | reflexivity].
  - apply (nested_rule_is_flat_rule "a" ":hover" rule prettyOptions ∅);
      solve [apply reachable_empty | reflexivity].
Defined.
